(** * rotations2d: vectorised 2D rotation utilities

    A shallow embedding of [rotations2d.py] and of the part of NumPy it
    runs on.  Numbers are exact reals: every statement below is about the
    real-number semantics of the formulas, so the tolerance that the
    floating-point implementation needs does not appear.  IEEE NaN/Inf
    are outside the model: where the code would produce them (a division
    by zero) the model has Rocq's [x / 0], and the theorems about
    results carry the side condition that excludes it. *)

From Stdlib Require Import List Arith Bool Lia ZArith Reals Lra.
Import ListNotations.
Open Scope R_scope.

(** ** Python exceptions *)

Inductive exn : Type :=
| TypeError
| ValueError
| IndexError.

Inductive result (A : Type) : Type :=
| Ok (a : A)
| Raise (e : exn).
Arguments Ok {A} a.
Arguments Raise {A} e.

Definition rbind {A B} (m : result A) (k : A -> result B) : result B :=
  match m with
  | Ok a => k a
  | Raise e => Raise e
  end.

Declare Scope py_scope.
Delimit Scope py_scope with py.
Notation "x <- m ;; k" := (rbind m (fun x => k))
  (at level 61, m at next level, right associativity) : py_scope.

(** ** n-dimensional arrays

    An array is its shape and its elements in row-major (C) order, as
    NumPy lays out a freshly built array. *)

Record ndarray : Type := mk_ndarray { shape : list nat; data : list R }.

Definition size_of (sh : list nat) : nat := fold_right Nat.mul 1%nat sh.

(** All multi-indices of a shape, in row-major order. *)
Fixpoint ndindex (sh : list nat) : list (list nat) :=
  match sh with
  | [] => [[]]
  | d :: s => flat_map (fun i => map (cons i) (ndindex s)) (seq 0 d)
  end.

(** Row-major offset of a multi-index. *)
Fixpoint ravel (sh idx : list nat) : nat :=
  match sh, idx with
  | _ :: s, i :: r => (i * size_of s + ravel s r)%nat
  | _, _ => 0%nat
  end.

Definition item (a : ndarray) (idx : list nat) : R :=
  nth (ravel (shape a) idx) (data a) 0.

(** The array of a given shape whose entry at [idx] is [f idx]. *)
Definition tabulate (sh : list nat) (f : list nat -> R) : ndarray :=
  mk_ndarray sh (map f (ndindex sh)).

Definition rsum (n : nat) (f : nat -> R) : R :=
  fold_right Rplus 0 (map f (seq 0 n)).

Definition shape_eqb (s t : list nat) : bool :=
  if list_eq_dec Nat.eq_dec s t then true else false.

(** *** Broadcasting *)

(** Shapes are aligned on their last axis; two extents are compatible
    when they are equal or one of them is 1.  Works on reversed shapes. *)
Fixpoint broadcast_rev (s t : list nat) : option (list nat) :=
  match s, t with
  | [], u => Some u
  | u, [] => Some u
  | d :: s', e :: t' =>
      match broadcast_rev s' t' with
      | None => None
      | Some r =>
          if (d =? e)%nat then Some (d :: r)
          else if (d =? 1)%nat then Some (e :: r)
          else if (e =? 1)%nat then Some (d :: r)
          else None
      end
  end.

Definition broadcast_shapes (s t : list nat) : option (list nat) :=
  option_map (@rev nat) (broadcast_rev (rev s) (rev t)).

(** Index into an operand of shape [sh] for the index [idx] of the
    broadcast result: leading axes the operand lacks are dropped, and an
    axis of extent 1 is read at 0. *)
Definition bidx (sh idx : list nat) : list nat :=
  map (fun p => if (fst p =? 1)%nat then 0%nat else snd p)
      (combine sh (skipn (length idx - length sh) idx)).

Definition binop (f : R -> R -> R) (a b : ndarray) : result ndarray :=
  match broadcast_shapes (shape a) (shape b) with
  | None => Raise ValueError
  | Some sh =>
      Ok (tabulate sh (fun idx =>
            f (item a (bidx (shape a) idx)) (item b (bidx (shape b) idx))))
  end.

Definition scalar (x : R) : ndarray := mk_ndarray [] [x].

Module np.

Definition atleast_1d (a : ndarray) : ndarray :=
  match shape a with
  | [] => mk_ndarray [1%nat] (data a)
  | _ => a
  end.

Definition atleast_2d (a : ndarray) : ndarray :=
  match shape a with
  | [] => mk_ndarray [1%nat; 1%nat] (data a)
  | [n] => mk_ndarray [1%nat; n] (data a)
  | _ => a
  end.

Definition sin (a : ndarray) : ndarray :=
  mk_ndarray (shape a) (map Rtrigo_def.sin (data a)).

Definition cos (a : ndarray) : ndarray :=
  mk_ndarray (shape a) (map Rtrigo_def.cos (data a)).

Definition sqrt (a : ndarray) : ndarray :=
  mk_ndarray (shape a) (map R_sqrt.sqrt (data a)).

Definition negative (a : ndarray) : ndarray :=
  mk_ndarray (shape a) (map Ropp (data a)).

Definition zeros (sh : list nat) : ndarray :=
  mk_ndarray sh (repeat 0 (size_of sh)).

(** [a.reshape(sh)]: the element count must be preserved. *)
Definition reshape (a : ndarray) (sh : list nat) : result ndarray :=
  if (size_of sh =? length (data a))%nat
  then Ok (mk_ndarray sh (data a))
  else Raise ValueError.

(** [a.T]: all axes reversed. *)
Definition T (a : ndarray) : ndarray :=
  tabulate (rev (shape a)) (fun idx => item a (rev idx)).

(** [np.dot(a, b)].  With a scalar operand it is a product; with [b]
    one-dimensional it contracts the last axis of [a] with [b];
    otherwise it contracts the last axis of [a] with the
    second-to-last axis of [b].  Extents that do not agree raise
    ValueError. *)
Definition dot (a b : ndarray) : result ndarray :=
  match shape a, shape b with
  | [], _ | _, [] => binop Rmult a b
  | sa, [m] =>
      if (last sa 0%nat =? m)%nat then
        Ok (tabulate (removelast sa) (fun ia =>
              rsum m (fun t => item a (ia ++ [t]) * item b [t])))
      else Raise ValueError
  | sa, sb =>
      let la := removelast sa in
      let lb := firstn (length sb - 2) sb in
      let k := last sa 0%nat in
      if (k =? nth (length sb - 2) sb 0%nat)%nat then
        Ok (tabulate (la ++ lb ++ [last sb 0%nat]) (fun idx =>
              let ia := firstn (length la) idx in
              let rest := skipn (length la) idx in
              let jb := removelast rest in
              let c := last rest 0%nat in
              rsum k (fun t => item a (ia ++ [t]) * item b (jb ++ [t; c]))))
      else Raise ValueError
  end.

(** Extent of an einsum label that occurs in both operands: equal
    extents, or one of them 1 (which is then broadcast). *)
Definition label_extent (d e : nat) : option nat :=
  if (d =? e)%nat then Some d
  else if (d =? 1)%nat then Some e
  else if (e =? 1)%nat then Some d
  else None.

Definition bcast (d i : nat) : nat := if (d =? 1)%nat then 0%nat else i.

(** [np.einsum('ijk,ik->ij', a, b)]: the first operand must have three
    axes and the second two; otherwise, and when the extents of a
    shared label cannot be broadcast together, ValueError. *)
Definition einsum_ijk_ik_ij (a b : ndarray) : result ndarray :=
  match shape a, shape b with
  | [ia; ja; ka], [ib; kb] =>
      match label_extent ia ib, label_extent ka kb with
      | Some ni, Some nk =>
          Ok (tabulate [ni; ja] (fun idx =>
                match idx with
                | [i; j] =>
                    rsum nk (fun k =>
                      item a [bcast ia i; j; bcast ka k]
                      * item b [bcast ib i; bcast kb k])
                | _ => 0
                end))
      | _, _ => Raise ValueError
      end
  | _, _ => Raise ValueError
  end.

End np.

(** [len(a)]: extent of the first axis; a 0-d array has no length. *)
Definition len (a : ndarray) : result nat :=
  match shape a with
  | [] => Raise TypeError
  | n :: _ => Ok n
  end.

(** [np.shape(a)[0]]. *)
Definition shape0 (a : ndarray) : result nat :=
  match shape a with
  | [] => Raise IndexError
  | n :: _ => Ok n
  end.

(** [np.array(l)] for a flat Python list. *)
Definition array1 (l : list R) : ndarray := mk_ndarray [length l] l.

(** The Python list [l * n]. *)
Definition list_times (l : list R) (n : nat) : list R := concat (repeat l n).

Fixpoint drop_ones (sh : list nat) : list nat :=
  match sh with
  | 1%nat :: s => drop_ones s
  | _ => sh
  end.

(** [r[:, i, j] = v] for the three-axis arrays that the module builds
    with [np.zeros((npts, 2, 2))] one line earlier.  The slice has shape
    [(npts,)]; [v] must broadcast to it. *)
Definition setitem_col (r : ndarray) (i j : nat) (v : ndarray)
  : result ndarray :=
  match shape r with
  | [n; p; q] =>
      if (i <? p)%nat && (j <? q)%nat then
        let put (val : nat -> R) :=
          tabulate (shape r) (fun idx =>
            match idx with
            | [a; b; c] =>
                if (b =? i)%nat && (c =? j)%nat then val a else item r idx
            | _ => 0
            end) in
        match drop_ones (shape v) with
        | [] => Ok (put (fun _ => nth 0 (data v) 0))
        | [m] =>
            if (m =? n)%nat then Ok (put (fun a => nth a (data v) 0))
            else Raise ValueError
        | _ => Raise ValueError
        end
      else Raise IndexError
  | _ => Raise IndexError
  end.

(** [np.sum(x, axis=1)]; only ever applied to arrays of at least two
    axes (after [np.atleast_2d]). *)
Definition sum_axis1 (x : ndarray) : ndarray :=
  match shape x with
  | n :: d :: rest =>
      tabulate (n :: rest) (fun idx =>
        match idx with
        | i :: r => rsum d (fun k => item x (i :: k :: r))
        | [] => 0
        end)
  | _ => x
  end.

(** [a == x] for a scalar [x] (a boolean mask). *)
Definition eq_mask (a : ndarray) (x : R) : list bool :=
  map (fun y => if Req_dec_T y x then true else false) (data a).

(** ** Plane vectors *)

Abbreviation vec2 := (R * R)%type.

Definition dot2 (u v : vec2) : R := fst u * fst v + snd u * snd v.

Definition norm2 (v : vec2) : R := sqrt (dot2 v v).

Definition cross2 (u v : vec2) : R := fst u * snd v - snd u * fst v.

Definition scale2 (a : R) (v : vec2) : vec2 := (a * fst v, a * snd v).

Definition nonzero (v : vec2) : Prop := v <> (0, 0).

(** A vector divided by its length. *)
Definition normalize (v : vec2) : vec2 := (fst v / norm2 v, snd v / norm2 v).

(** Modelled from the spec: the angle that
    [angles_between_list_of_vectors] (of [vector_calculations], missing
    from the sources) computes for one pair of vectors; the glossary
    calls it the signed angle, in radians, required to rotate one vector
    onto another in 2D.  Rotation by an angle being the one of
    [rotation_matrices_from_angles] (section 4.1), this is the angle of
    (-pi, pi] whose cosine is the dot product of the two unit vectors
    and whose sign is the sign of [u_y v_x - u_x v_y]. *)
Definition signed_angle (u v : vec2) : R :=
  let e_u := normalize u in
  let e_v := normalize v in
  if Rle_dec 0 (snd e_u * fst e_v - fst e_u * snd e_v)
  then acos (dot2 e_u e_v)
  else - acos (dot2 e_u e_v).

(** ** The NumPy installation

    The module draws from NumPy's process-wide generator and passes the
    [optimize] keyword to [einsum], which old releases reject. *)

Class NumPy : Type := {
  rng_state : Type;
  (** one draw of [np.random.random()], a double of [[0, 1)] *)
  random_sample : rng_state -> R * rng_state;
  (** the generator state after [np.random.seed(s)] *)
  seed_state : Z -> rng_state;
  (** whether [np.einsum] accepts the [optimize] keyword *)
  einsum_optimize_kw : bool
}.

Section Program.

Context {numpy : NumPy}.

(** Code that touches the process-wide generator: state passing, with
    the exception (if any) as the result. *)
Definition M (A : Type) : Type := rng_state -> result A * rng_state.

Definition bind {A B} (m : M A) (k : A -> M B) : M B :=
  fun st =>
    match m st with
    | (Ok a, st') => k a st'
    | (Raise e, st') => (Raise e, st')
    end.

Definition lift {A} (r : result A) : M A := fun st => (r, st).

Notation "x <~ m ;; k" := (bind m (fun x => k))
  (at level 61, m at next level, right associativity).

Fixpoint draw (n : nat) (st : rng_state) : list R * rng_state :=
  match n with
  | O => ([], st)
  | S n' =>
      let (x, st1) := random_sample st in
      let (xs, st2) := draw n' st1 in
      (x :: xs, st2)
  end.

(** [np.random.random(size)]. *)
Definition random_random (size : list nat) : M ndarray :=
  fun st =>
    let (xs, st') := draw (size_of size) st in
    (Ok (mk_ndarray size xs), st').

(** [np.einsum('ijk,ik->ij', a, b)], with [optimize=o] when [kw] is
    [Some o]. *)
Definition einsum (a b : ndarray) (kw : option bool) : result ndarray :=
  match kw with
  | Some _ =>
      if einsum_optimize_kw then np.einsum_ijk_ik_ij a b
      else Raise TypeError
  | None => np.einsum_ijk_ik_ij a b
  end.

(** *** Helpers of the sibling module [vector_calculations] *)

(** Modelled from the spec: [elementwise_norm] of [vector_calculations]
    is missing from the sources; the spec (section 6) describes it as
    the elementwise norm of a batch, used in 4.5 to scale a vector to
    unit L2 length: one Euclidean norm per row. *)
Definition elementwise_norm (x : ndarray) : ndarray :=
  let x := np.atleast_2d x in
  np.sqrt (sum_axis1 (tabulate (shape x) (fun idx => item x idx * item x idx))).

(** Modelled from the spec: [elementwise_dot] of [vector_calculations]
    is missing from the sources; the spec (section 6) describes it as
    the elementwise dot product of two batches: one dot product per
    row. *)
Definition elementwise_dot (x y : ndarray) : result ndarray :=
  (p <- binop Rmult (np.atleast_2d x) (np.atleast_2d y) ;;
   Ok (sum_axis1 p))%py.

(** Modelled from the spec: [normalized_vectors] of
    [vector_calculations] is missing from the sources; the spec
    (section 6, glossary) describes it as batch L2 normalisation: each
    vector scaled to unit L2 length, that is divided by its norm. *)
Definition normalized_vectors (vectors : ndarray) : result ndarray :=
  (let vectors := np.atleast_2d vectors in
   let npts := hd 0%nat (shape vectors) in
   n <- np.reshape (elementwise_norm vectors) [npts; 1%nat] ;;
   binop Rdiv vectors n)%py.

(** Modelled from the spec: [angles_between_list_of_vectors] of
    [vector_calculations] is missing from the sources; the spec
    (4.2, section 6, glossary) describes it as the signed angle, in
    radians, required to rotate one vector onto another in 2D, computed
    for corresponding pairs of two batches. *)
Definition angles_between_list_of_vectors (v0 v1 : ndarray)
  : result ndarray :=
  match shape v0, shape v1 with
  | [n; 2%nat], [m; 2%nat] =>
      if (n =? m)%nat then
        Ok (tabulate [n] (fun idx =>
              match idx with
              | [i] => signed_angle (item v0 [i; 0%nat], item v0 [i; 1%nat])
                                    (item v1 [i; 0%nat], item v1 [i; 1%nat])
              | _ => 0
              end))
      else Raise ValueError
  | _, _ => Raise ValueError
  end.

(** Modelled from the spec: [NumpyRNGContext] reaches the module through
    [vector_calculations] and is missing from the sources; the spec
    (4.5, section 6) describes it as a scoped random context: if a seed
    is supplied, the random state is saved before the enclosed draw, the
    generator is seeded, and the saved state is restored afterwards
    regardless of success; without a seed the enclosed draw uses the
    process-wide generator. *)
Definition with_NumpyRNGContext {A} (seed : option Z) (body : M A) : M A :=
  fun st =>
    match seed with
    | Some s => let (r, _) := body (seed_state s) in (r, st)
    | None => body st
    end.

(** A Python call of a one-parameter function with positional
    arguments: any other number of arguments is a TypeError. *)
Definition call1 {A B} (f : A -> result B) (args : list A) : result B :=
  match args with
  | [a] => f a
  | _ => Raise TypeError
  end.

(** *** rotations2d.py *)

Definition rotate_vector_collection
  (rotation_matrices vectors : ndarray) (optimize : bool) : result ndarray :=
  if shape_eqb (shape rotation_matrices) [2%nat; 2%nat] then
    (d <- np.dot rotation_matrices (np.T vectors) ;; Ok (np.T d))%py
  else
    match einsum rotation_matrices vectors (Some optimize) with
    | Raise TypeError => einsum rotation_matrices vectors None
    | r => r
    end.

Definition rotation_matrices_from_angles (angles : ndarray)
  : result ndarray :=
  (let angles := np.atleast_1d angles in
   npts <- len angles ;;
   let sina := np.sin angles in
   let cosa := np.cos angles in
   let R := np.zeros [npts; 2%nat; 2%nat] in
   R <- setitem_col R 0 0 cosa ;;
   R <- setitem_col R 1 1 cosa ;;
   R <- setitem_col R 0 1 sina ;;
   R <- setitem_col R 1 0 (np.negative sina) ;;
   Ok R)%py.

Definition random_rotation (vectors : ndarray) : M ndarray :=
  r <~ random_random [1%nat] ;;
  ran_angle <~ lift (binop Rmult r (scalar PI)) ;;
  w <~ random_random [2%nat] ;;
  e <~ lift (normalized_vectors w) ;;
  t <~ lift (binop Rmult e (scalar 2)) ;;
  ran_direction <~ lift (binop Rminus t (scalar 1)) ;;
  ran_rot <~ lift (call1 rotation_matrices_from_angles
                         [ran_angle; ran_direction]) ;;
  lift (rotate_vector_collection ran_rot vectors false).

Definition rotation_matrices_from_vectors (v0 v1 : ndarray)
  : result ndarray :=
  (v0 <- normalized_vectors v0 ;;
   v1 <- normalized_vectors v1 ;;
   angles <- angles_between_list_of_vectors v0 v1 ;;
   let mask := eq_mask angles 0 in
   rotation_matrices_from_angles angles)%py.

Definition random_perpendicular_directions (v : ndarray) (seed : option Z)
  : M ndarray :=
  let v := np.atleast_2d v in
  let npts := hd 0%nat (shape v) in
  w <~ with_NumpyRNGContext seed (random_random [npts; 2%nat]) ;;
  lift (vnorms <- np.reshape (elementwise_norm v) [npts; 1%nat] ;;
        wnorms <- np.reshape (elementwise_norm w) [npts; 1%nat] ;;
        e_v <- binop Rdiv v vnorms ;;
        e_w <- binop Rdiv w wnorms ;;
        d <- elementwise_dot e_v e_w ;;
        v_dot_w <- np.reshape d [npts; 1%nat] ;;
        p <- binop Rmult v_dot_w e_v ;;
        e_v_perp <- binop Rminus e_w p ;;
        e_v_perp_norm <- np.reshape (elementwise_norm e_v_perp) [npts; 1%nat] ;;
        binop Rdiv e_v_perp e_v_perp_norm)%py.

Definition rotation2d (ux uy : ndarray) : result ndarray :=
  (N <- shape0 ux ;;
   ex <- np.reshape (array1 (list_times [1; 0] N)) [N; 3%nat] ;;
   ey <- np.reshape (array1 (list_times [0; 1] N)) [N; 3%nat] ;;
   ux <- normalized_vectors ux ;;
   uy <- normalized_vectors uy ;;
   r_11 <- elementwise_dot ex ux ;;
   r_12 <- elementwise_dot ex uy ;;
   r_21 <- elementwise_dot ey ux ;;
   r_22 <- elementwise_dot ey uy ;;
   let r := np.zeros [N; 2%nat; 2%nat] in
   r <- setitem_col r 0 0 r_11 ;;
   r <- setitem_col r 0 1 r_12 ;;
   r <- setitem_col r 1 0 r_21 ;;
   r <- setitem_col r 1 1 r_22 ;;
   Ok r)%py.

End Program.

(** ** Batches as lists

    The statements speak of batches of 2D vectors and of 2x2 matrices;
    these are the arrays of shape [(N, 2)] and [(N, 2, 2)] that hold
    them. *)

Record mat2 : Type := Mat2 { m00 : R; m01 : R; m10 : R; m11 : R }.

Definition vec_row (v : vec2) : list R := [fst v; snd v].
Definition mat_rows (m : mat2) : list R := [m00 m; m01 m; m10 m; m11 m].

(** A single vector, shape [(2,)]. *)
Definition of_vec (v : vec2) : ndarray := mk_ndarray [2%nat] (vec_row v).

(** A batch of vectors, shape [(N, 2)]. *)
Definition of_vecs (vs : list vec2) : ndarray :=
  mk_ndarray [length vs; 2%nat] (flat_map vec_row vs).

(** A single matrix, shape [(2, 2)]. *)
Definition of_mat (m : mat2) : ndarray :=
  mk_ndarray [2%nat; 2%nat] (mat_rows m).

(** A batch of matrices, shape [(N, 2, 2)]. *)
Definition of_mats (ms : list mat2) : ndarray :=
  mk_ndarray [length ms; 2%nat; 2%nat] (flat_map mat_rows ms).

Definition rot (theta : R) : mat2 :=
  Mat2 (cos theta) (sin theta) (- sin theta) (cos theta).

Definition identity2 : mat2 := Mat2 1 0 0 1.

Definition mat_vec (m : mat2) (v : vec2) : vec2 :=
  (m00 m * fst v + m01 m * snd v, m10 m * fst v + m11 m * snd v).

Definition mat_mul (a b : mat2) : mat2 :=
  Mat2 (m00 a * m00 b + m01 a * m10 b) (m00 a * m01 b + m01 a * m11 b)
       (m10 a * m00 b + m11 a * m10 b) (m10 a * m01 b + m11 a * m11 b).

Definition transpose2 (a : mat2) : mat2 :=
  Mat2 (m00 a) (m10 a) (m01 a) (m11 a).

Definition det2 (a : mat2) : R := m00 a * m11 a - m01 a * m10 a.

Fixpoint pairs (l : list R) : list vec2 :=
  match l with
  | x :: y :: r => (x, y) :: pairs r
  | _ => []
  end.

(** The matrix [m] with its entry [(i, j)] replaced by [x]. *)
Definition set_entry (i j : nat) (m : mat2) (x : R) : mat2 :=
  match i, j with
  | 0%nat, 0%nat => Mat2 x (m01 m) (m10 m) (m11 m)
  | 0%nat, _ => Mat2 (m00 m) x (m10 m) (m11 m)
  | _, 0%nat => Mat2 (m00 m) (m01 m) x (m11 m)
  | _, _ => Mat2 (m00 m) (m01 m) (m10 m) x
  end.

(** The part of the unit vector of [w] that is orthogonal to the unit
    vector of [v], scaled to unit length (one Gram-Schmidt step). *)
Definition perpendicular (v w : vec2) : vec2 :=
  let e_v := normalize v in
  let e_w := normalize w in
  let d := dot2 e_v e_w in
  let p := (fst e_w - d * fst e_v, snd e_w - d * snd e_v) in
  normalize p.

(** The generator state in which the draw enclosed by
    [NumpyRNGContext(seed)] runs. *)
Definition context_state {numpy : NumPy} (seed : option Z) (st : rng_state)
  : rng_state :=
  match seed with
  | Some s => seed_state s
  | None => st
  end.

(** The batch [w] that [np.random.random((n, 2))] draws in state [st]. *)
Definition sample_vectors {numpy : NumPy} (n : nat) (st : rng_state)
  : list vec2 :=
  pairs (fst (draw (size_of [n; 2%nat]) st)).

(** ** A small concrete installation, for closed examples

    A 4-bit linear congruential generator (draws k/16) and an [einsum]
    that knows the [optimize] keyword. *)

Definition lcg16 : NumPy :=
  {| rng_state := Z;
     random_sample := fun s => (IZR (s mod 16) / 16, ((5 * s + 3) mod 16)%Z);
     seed_state := fun z => (z mod 16)%Z;
     einsum_optimize_kw := true |}.

(** The same generator under a NumPy whose [einsum] predates the
    [optimize] keyword. *)
Definition lcg16_old : NumPy :=
  {| rng_state := Z;
     random_sample := fun s => (IZR (s mod 16) / 16, ((5 * s + 3) mod 16)%Z);
     seed_state := fun z => (z mod 16)%Z;
     einsum_optimize_kw := false |}.

(** * Properties *)

(** ** The array model on small inputs *)

Example T_3x2 :
  np.T (mk_ndarray [3; 2]%nat [1; 2; 3; 4; 5; 6])
  = mk_ndarray [2; 3]%nat [1; 3; 5; 2; 4; 6].
Proof. reflexivity. Qed.

Example broadcast_shapes_examples :
  broadcast_shapes [3; 1]%nat [2%nat] = Some [3; 2]%nat
  /\ broadcast_shapes [4; 2]%nat [1; 2]%nat = Some [4; 2]%nat
  /\ broadcast_shapes [0; 3]%nat [0; 2]%nat = None.
Proof. repeat split. Qed.

Example dot_2x2_2x1 :
  np.dot (mk_ndarray [2; 2]%nat [1; 2; 3; 4]) (mk_ndarray [2; 1]%nat [5; 6])
  = Ok (mk_ndarray [2; 1]%nat [17; 39]).
Proof.
  unfold np.dot, tabulate, rsum, item; simpl. do 2 f_equal.
  repeat (f_equal; try lra).
Qed.

Example einsum_two_items :
  np.einsum_ijk_ik_ij (mk_ndarray [2; 2; 2]%nat [1; 2; 3; 4; 5; 6; 7; 8])
                      (mk_ndarray [2; 2]%nat [1; 1; 1; 0])
  = Ok (mk_ndarray [2; 2]%nat [3; 7; 5; 7]).
Proof.
  unfold np.einsum_ijk_ik_ij, tabulate, rsum, item; simpl. do 2 f_equal.
  repeat (f_equal; try lra).
Qed.

Example einsum_length_2_against_3 :
  np.einsum_ijk_ik_ij (np.zeros [2; 2; 2]%nat) (np.zeros [3; 2]%nat)
  = Raise ValueError.
Proof. reflexivity. Qed.

Example reshape_4_into_2x3 :
  np.reshape (array1 (list_times [1; 0] 2)) [2; 3]%nat = Raise ValueError.
Proof. reflexivity. Qed.

Example setitem_col_example :
  setitem_col (np.zeros [2; 2; 2]%nat) 0 1 (array1 [7; 9])
  = Ok (mk_ndarray [2; 2; 2]%nat [0; 7; 0; 0; 0; 9; 0; 0]).
Proof. reflexivity. Qed.

(** ** Lists and indices *)

Lemma map_flat_map_singleton {A B} (f : A -> B) (g : nat -> A) (l : list nat) :
  map f (flat_map (fun i => [g i]) l) = map (fun i => f (g i)) l.
Proof.
  induction l as [|i l IH]; simpl; [reflexivity|]. now rewrite IH.
Qed.

Lemma map_seq_nth {A B} (g : A -> B) (l : list A) (d : A) :
  map (fun i => g (nth i l d)) (seq 0 (length l)) = map g l.
Proof.
  induction l as [|x l IH]; simpl; [reflexivity|].
  f_equal. rewrite <- seq_shift, map_map. exact IH.
Qed.

Lemma map_seq_nth2 {A B C} (g : A -> B -> C) (l : list A) (k : list B)
  (da : A) (db : B) :
  length l = length k ->
  map (fun i => g (nth i l da) (nth i k db)) (seq 0 (length l))
  = map (fun p => g (fst p) (snd p)) (combine l k).
Proof.
  revert k; induction l as [|x l IH]; intros [|y k] H; simpl in *;
    try discriminate; [reflexivity|].
  f_equal. rewrite <- seq_shift, map_map. apply IH. lia.
Qed.

Lemma tabulate_1 (n : nat) (f : list nat -> R) :
  tabulate [n] f = mk_ndarray [n] (map (fun i => f [i]) (seq 0 n)).
Proof.
  unfold tabulate. f_equal. simpl.
  apply (map_flat_map_singleton f (fun i => [i])).
Qed.

Lemma tabulate_n2 (n : nat) (f : list nat -> R) :
  tabulate [n; 2%nat] f
  = of_vecs (map (fun i => (f [i; 0%nat], f [i; 1%nat])) (seq 0 n)).
Proof.
  unfold tabulate, of_vecs. rewrite length_map, length_seq. f_equal.
  simpl. generalize (seq 0 n) as l.
  induction l as [|i l IH]; simpl; [reflexivity|]. now rewrite IH.
Qed.

Lemma tabulate_n22 (n : nat) (f : list nat -> R) :
  tabulate [n; 2%nat; 2%nat] f
  = of_mats (map (fun i => Mat2 (f [i; 0%nat; 0%nat]) (f [i; 0%nat; 1%nat])
                                (f [i; 1%nat; 0%nat]) (f [i; 1%nat; 1%nat]))
                 (seq 0 n)).
Proof.
  unfold tabulate, of_mats. rewrite length_map, length_seq. f_equal.
  simpl. generalize (seq 0 n) as l.
  induction l as [|i l IH]; simpl; [reflexivity|]. now rewrite IH.
Qed.

Lemma tabulate_2n (n : nat) (f : list nat -> R) :
  tabulate [2%nat; n] f
  = mk_ndarray [2%nat; n]
      (map (fun j => f [0%nat; j]) (seq 0 n)
       ++ map (fun j => f [1%nat; j]) (seq 0 n)).
Proof.
  unfold tabulate. f_equal. simpl. rewrite app_nil_r, map_app.
  f_equal; rewrite map_map;
    apply (map_flat_map_singleton (fun x => f (_ :: x)) (fun i => [i])).
Qed.

Lemma nth_nil_R (n : nat) : nth n (@nil R) 0 = 0.
Proof. destruct n; reflexivity. Qed.

Lemma nth_vec_rows (vs : list vec2) (i : nat) :
  nth (2 * i) (flat_map vec_row vs) 0 = fst (nth i vs (0, 0))
  /\ nth (2 * i + 1) (flat_map vec_row vs) 0 = snd (nth i vs (0, 0)).
Proof.
  revert i; induction vs as [|v vs IH]; intros i.
  - simpl flat_map. rewrite !nth_nil_R. destruct i; split; reflexivity.
  - destruct i as [|i].
    + split; reflexivity.
    + replace (2 * S i)%nat with (S (S (2 * i))) by lia.
      replace (S (S (2 * i)) + 1)%nat with (S (S (2 * i + 1))) by lia.
      simpl nth. simpl flat_map. simpl nth. apply IH.
Qed.

Lemma nth_mat_rows (ms : list mat2) (i : nat) :
  let m := nth i ms (Mat2 0 0 0 0) in
  nth (4 * i) (flat_map mat_rows ms) 0 = m00 m
  /\ nth (4 * i + 1) (flat_map mat_rows ms) 0 = m01 m
  /\ nth (4 * i + 2) (flat_map mat_rows ms) 0 = m10 m
  /\ nth (4 * i + 3) (flat_map mat_rows ms) 0 = m11 m.
Proof.
  revert i; induction ms as [|m ms IH]; intros i.
  - simpl flat_map. rewrite !nth_nil_R. destruct i; simpl; auto.
  - destruct i as [|i].
    + simpl; auto.
    + replace (4 * S i)%nat with (S (S (S (S (4 * i))))) by lia.
      replace (S (S (S (S (4 * i)))) + 1)%nat
        with (S (S (S (S (4 * i + 1))))) by lia.
      replace (S (S (S (S (4 * i)))) + 2)%nat
        with (S (S (S (S (4 * i + 2))))) by lia.
      replace (S (S (S (S (4 * i)))) + 3)%nat
        with (S (S (S (S (4 * i + 3))))) by lia.
      simpl nth. simpl flat_map. simpl nth. apply IH.
Qed.

Lemma item_of_vecs_0 (vs : list vec2) (i : nat) :
  item (of_vecs vs) [i; 0%nat] = fst (nth i vs (0, 0)).
Proof.
  unfold item, of_vecs; cbn [shape data].
  replace (ravel _ _) with (2 * i)%nat by (simpl; lia).
  apply nth_vec_rows.
Qed.

Lemma item_of_vecs_1 (vs : list vec2) (i : nat) :
  item (of_vecs vs) [i; 1%nat] = snd (nth i vs (0, 0)).
Proof.
  unfold item, of_vecs; cbn [shape data].
  replace (ravel _ _) with (2 * i + 1)%nat by (simpl; lia).
  apply nth_vec_rows.
Qed.

Lemma item_of_mats (ms : list mat2) (i : nat) :
  let m := nth i ms (Mat2 0 0 0 0) in
  item (of_mats ms) [i; 0%nat; 0%nat] = m00 m
  /\ item (of_mats ms) [i; 0%nat; 1%nat] = m01 m
  /\ item (of_mats ms) [i; 1%nat; 0%nat] = m10 m
  /\ item (of_mats ms) [i; 1%nat; 1%nat] = m11 m.
Proof.
  intros m. unfold item, of_mats; cbn [shape data].
  destruct (nth_mat_rows ms i) as (H0 & H1 & H2 & H3).
  repeat split.
  - replace (ravel _ _) with (4 * i)%nat by (simpl; lia). exact H0.
  - replace (ravel _ _) with (4 * i + 1)%nat by (simpl; lia). exact H1.
  - replace (ravel _ _) with (4 * i + 2)%nat by (simpl; lia). exact H2.
  - replace (ravel _ _) with (4 * i + 3)%nat by (simpl; lia). exact H3.
Qed.

Lemma item_of_mat (m : mat2) :
  item (of_mat m) [0%nat; 0%nat] = m00 m
  /\ item (of_mat m) [0%nat; 1%nat] = m01 m
  /\ item (of_mat m) [1%nat; 0%nat] = m10 m
  /\ item (of_mat m) [1%nat; 1%nat] = m11 m.
Proof. repeat split. Qed.

(** ** Building the matrix batch, entry by entry *)

Lemma zeros_n22 (n : nat) :
  np.zeros [n; 2%nat; 2%nat] = of_mats (repeat (Mat2 0 0 0 0) n).
Proof.
  unfold np.zeros, of_mats. rewrite repeat_length. f_equal.
  simpl size_of. induction n as [|n IH]; [reflexivity|].
  replace (S n * (2 * (2 * 1)))%nat with (4 + n * (2 * (2 * 1)))%nat by lia.
  simpl repeat at 1. simpl. now rewrite <- IH.
Qed.

Lemma drop_ones_1 (n : nat) :
  drop_ones [n] = if (n =? 1)%nat then [] else [n].
Proof. destruct n as [|[|n]]; reflexivity. Qed.

Lemma setitem_col_of_mats (ms : list mat2) (l : list R) (i j : nat) :
  length l = length ms -> (i < 2)%nat -> (j < 2)%nat ->
  setitem_col (of_mats ms) i j (array1 l)
  = Ok (of_mats (map (fun p => set_entry i j (fst p) (snd p))
                     (combine ms l))).
Proof.
  intros Hlen Hi Hj.
  assert (Hput : forall val : nat -> R,
    (forall a, (a < length ms)%nat -> val a = nth a l 0) ->
    tabulate [length ms; 2%nat; 2%nat] (fun idx =>
      match idx with
      | [a; b; c] =>
          if (b =? i)%nat && (c =? j)%nat then val a
          else item (of_mats ms) idx
      | _ => 0
      end)
    = of_mats (map (fun p => set_entry i j (fst p) (snd p)) (combine ms l))).
  { intros val Hval. rewrite tabulate_n22. f_equal.
    rewrite <- (map_seq_nth2 (set_entry i j) ms l (Mat2 0 0 0 0) 0)
      by (symmetry; exact Hlen).
    apply map_ext_in. intros a Ha. apply in_seq in Ha.
    rewrite Hval by lia.
    destruct (item_of_mats ms a) as (H0 & H1 & H2 & H3).
    rewrite H0, H1, H2, H3.
    destruct i as [|[|i]]; [| |lia]; (destruct j as [|[|j]]; [| |lia]);
      simpl; destruct (nth a ms (Mat2 0 0 0 0)); reflexivity. }
  unfold setitem_col. cbn [shape of_mats array1].
  replace ((i <? 2)%nat && (j <? 2)%nat) with true
    by (symmetry; apply andb_true_intro; split; apply Nat.ltb_lt; lia).
  rewrite Hlen, drop_ones_1.
  destruct (Nat.eqb_spec (length ms) 1) as [E|E].
  - f_equal. apply Hput. intros a Ha. now replace a with 0%nat by lia.
  - rewrite Nat.eqb_refl. f_equal. apply Hput. intros; reflexivity.
Qed.

Lemma array1_map (f : R -> R) (l : list R) :
  mk_ndarray (shape (array1 l)) (map f (data (array1 l))) = array1 (map f l).
Proof. unfold array1; cbn [shape data]. now rewrite length_map. Qed.

Lemma build_rot (angles : list R) :
  map (fun p => set_entry 1 0 (fst p) (snd p))
    (combine
      (map (fun p => set_entry 0 1 (fst p) (snd p))
        (combine
          (map (fun p => set_entry 1 1 (fst p) (snd p))
            (combine
              (map (fun p => set_entry 0 0 (fst p) (snd p))
                (combine (repeat (Mat2 0 0 0 0) (length angles))
                         (map cos angles)))
              (map cos angles)))
          (map sin angles)))
      (map Ropp (map sin angles)))
  = map rot angles.
Proof.
  induction angles as [|a l IH]; [reflexivity|].
  simpl. f_equal. exact IH.
Qed.

(** The matrix of one angle, as the four assignments build it. *)
Lemma rotation_matrices_from_angles_array1 (angles : list R) :
  rotation_matrices_from_angles (array1 angles)
  = Ok (of_mats (map rot angles)).
Proof.
  unfold rotation_matrices_from_angles.
  cbn [np.atleast_1d array1 shape len rbind].
  rewrite zeros_n22.
  unfold np.cos, np.sin, np.negative. cbn [shape data].
  fold (array1 angles). rewrite !array1_map.
  rewrite setitem_col_of_mats
    by (rewrite ?length_map, ?length_combine, ?repeat_length; lia).
  cbn [rbind].
  rewrite setitem_col_of_mats
    by (rewrite ?length_map, ?length_combine, ?length_map, ?repeat_length; lia).
  cbn [rbind].
  rewrite setitem_col_of_mats
    by (repeat rewrite ?length_map, ?length_combine, ?repeat_length; lia).
  cbn [rbind].
  replace (mk_ndarray _ (map Ropp _)) with (array1 (map Ropp (map sin angles)))
    by (unfold array1; cbn [shape data]; now rewrite !length_map).
  rewrite setitem_col_of_mats
    by (repeat rewrite ?length_map, ?length_combine, ?repeat_length; lia).
  cbn [rbind]. now rewrite build_rot.
Qed.

(** ** Angles to matrices *)

(** C1: for every batch of real angles, [rotation_matrices_from_angles]
    returns the array of shape (N, 2, 2) holding, for each angle theta in
    order, the matrix [[cos theta, sin theta], [-sin theta, cos theta]];
    a scalar angle is treated as a batch of length one; the angle 0
    gives the identity matrix, and the angles [0, pi/2] give
    [[[1,0],[0,1]], [[0,1],[-1,0]]]. *)
Theorem rotation_matrices_from_angles_spec :
  (forall angles : list R,
     rotation_matrices_from_angles (array1 angles)
     = Ok (of_mats (map (fun t => Mat2 (cos t) (sin t) (- sin t) (cos t))
                        angles)))
  /\ (forall theta : R,
        rotation_matrices_from_angles (scalar theta)
        = Ok (of_mats [Mat2 (cos theta) (sin theta)
                            (- sin theta) (cos theta)]))
  /\ rotation_matrices_from_angles (array1 [0])
     = Ok (mk_ndarray [1; 2; 2]%nat [1; 0; 0; 1])
  /\ rotation_matrices_from_angles (array1 [0; PI / 2])
     = Ok (mk_ndarray [2; 2; 2]%nat [1; 0; 0; 1; 0; 1; -1; 0]).
Proof.
  split; [|split; [|split]].
  - exact rotation_matrices_from_angles_array1.
  - intros theta.
    exact (rotation_matrices_from_angles_array1 [theta]).
  - rewrite rotation_matrices_from_angles_array1.
    unfold of_mats, mat_rows; simpl.
    now rewrite cos_0, sin_0, Ropp_0.
  - rewrite rotation_matrices_from_angles_array1.
    unfold of_mats, mat_rows; simpl.
    now rewrite cos_0, sin_0, Ropp_0, cos_PI2, sin_PI2.
Qed.

Lemma rot_orthogonal (theta : R) :
  mat_mul (rot theta) (transpose2 (rot theta)) = identity2.
Proof.
  pose proof (sin2_cos2 theta) as H. unfold Rsqr in H.
  unfold mat_mul, transpose2, rot, identity2; cbn [m00 m01 m10 m11].
  f_equal; lra.
Qed.

Lemma rot_det (theta : R) : det2 (rot theta) = 1.
Proof.
  pose proof (sin2_cos2 theta) as H. unfold Rsqr in H.
  unfold det2, rot; cbn [m00 m01 m10 m11]. lra.
Qed.

(** C8: for every batch of real angles, [rotation_matrices_from_angles]
    returns one matrix per angle, and every matrix M of the result
    satisfies M * M^T = identity and det M = 1, exactly, in real
    arithmetic. *)
Theorem rotation_matrices_from_angles_orthogonal (angles : list R) :
  exists ms : list mat2,
    rotation_matrices_from_angles (array1 angles) = Ok (of_mats ms)
    /\ length ms = length angles
    /\ Forall (fun M => mat_mul M (transpose2 M) = identity2 /\ det2 M = 1)
              ms.
Proof.
  exists (map rot angles). split; [|split].
  - apply rotation_matrices_from_angles_array1.
  - apply length_map.
  - apply Forall_forall. intros M HM. apply in_map_iff in HM.
    destruct HM as (theta & <- & _).
    split; [apply rot_orthogonal | apply rot_det].
Qed.

(** ** Applying matrices to vectors *)

Lemma T_of_vecs (vs : list vec2) :
  np.T (of_vecs vs)
  = mk_ndarray [2%nat; length vs] (map fst vs ++ map snd vs).
Proof.
  unfold np.T. cbn [shape of_vecs rev app]. rewrite tabulate_2n.
  f_equal. f_equal.
  - erewrite map_ext by (intros j; cbn [rev app]; apply item_of_vecs_0).
    apply map_seq_nth.
  - erewrite map_ext by (intros j; cbn [rev app]; apply item_of_vecs_1).
    apply map_seq_nth.
Qed.

Lemma item_2n (l0 l1 : list R) (j : nat) :
  (j < length l0)%nat ->
  item (mk_ndarray [2%nat; length l0] (l0 ++ l1)) [0%nat; j] = nth j l0 0
  /\ item (mk_ndarray [2%nat; length l0] (l0 ++ l1)) [1%nat; j] = nth j l1 0.
Proof.
  intros Hj. unfold item; cbn [shape data]. split.
  - replace (ravel _ _) with j by (simpl; lia). now apply app_nth1.
  - replace (ravel _ _) with (length l0 + j)%nat by (simpl; lia).
    apply app_nth2_plus.
Qed.

Lemma T_2n (l0 l1 : list R) :
  length l0 = length l1 ->
  np.T (mk_ndarray [2%nat; length l0] (l0 ++ l1)) = of_vecs (combine l0 l1).
Proof.
  intros Hlen. unfold np.T. cbn [shape rev app]. rewrite tabulate_n2.
  f_equal.
  transitivity (map (fun p : vec2 => p) (combine l0 l1)); [|apply map_id].
  rewrite <- (map_seq_nth (fun p : vec2 => p) (combine l0 l1) (0, 0)),
    (length_combine l0 l1), <- Hlen, Nat.min_id.
  apply map_ext_in. intros j Hj. apply in_seq in Hj. cbn [rev app].
  destruct (item_2n l0 l1 j) as [H0 H1]; [lia|].
  rewrite H0, H1. symmetry. apply combine_nth. exact Hlen.
Qed.

Lemma dot_mat_2n (m : mat2) (l0 l1 : list R) :
  length l0 = length l1 ->
  np.dot (of_mat m) (mk_ndarray [2%nat; length l0] (l0 ++ l1))
  = Ok (mk_ndarray [2%nat; length l0]
          (map (fun p => m00 m * fst p + m01 m * snd p) (combine l0 l1)
           ++ map (fun p => m10 m * fst p + m11 m * snd p) (combine l0 l1))).
Proof.
  intros Hlen. unfold np.dot. cbn [shape of_mat].
  cbn [last removelast length Nat.sub firstn nth Nat.eqb app skipn].
  rewrite tabulate_2n. f_equal. f_equal.
  assert (Hrow : forall a b : R,
    map (fun j => rsum 2 (fun t =>
           nth t [a; b] 0
           * item (mk_ndarray [2%nat; length l0] (l0 ++ l1)) [t; j]))
        (seq 0 (length l0))
    = map (fun p => a * fst p + b * snd p) (combine l0 l1)).
  { intros a b.
    rewrite <- (map_seq_nth (fun p => a * fst p + b * snd p)
                            (combine l0 l1) (0, 0)),
      (length_combine l0 l1), <- Hlen, Nat.min_id.
    apply map_ext_in. intros j Hj. apply in_seq in Hj.
    destruct (item_2n l0 l1 j) as [H0 H1]; [lia|].
    unfold rsum. cbn [seq map fold_right nth]. rewrite H0, H1.
    rewrite combine_nth by exact Hlen. cbn [fst snd]. ring. }
  f_equal.
  - rewrite <- (Hrow (m00 m) (m01 m)). apply map_ext. intros j.
    unfold rsum; cbn [seq map fold_right firstn skipn removelast last app].
    reflexivity.
  - rewrite <- (Hrow (m10 m) (m11 m)). apply map_ext. intros j.
    unfold rsum; cbn [seq map fold_right firstn skipn removelast last app].
    reflexivity.
Qed.

Lemma bcast_lt (n i : nat) : (i < n)%nat -> np.bcast n i = i.
Proof. unfold np.bcast. destruct (Nat.eqb_spec n 1); lia. Qed.

Section Apply.

Context {numpy : NumPy}.

(** Shared mode: one matrix, every vector. *)
Lemma rotate_vector_collection_shared (m : mat2) (vs : list vec2)
  (optimize : bool) :
  rotate_vector_collection (of_mat m) (of_vecs vs) optimize
  = Ok (of_vecs (map (mat_vec m) vs)).
Proof.
  unfold rotate_vector_collection. cbn [shape of_mat].
  replace (shape_eqb _ _) with true by reflexivity.
  rewrite T_of_vecs.
  assert (Hlen : length (map fst vs) = length (map snd vs))
    by now rewrite !length_map.
  rewrite <- (length_map fst vs) at 1.
  rewrite (dot_mat_2n m _ _ Hlen). cbn [rbind]. f_equal.
  assert (Hc : combine (map fst vs) (map snd vs) = vs).
  { clear. induction vs as [|[x y] vs IH]; simpl; [reflexivity|].
    now rewrite IH. }
  rewrite Hc.
  rewrite (length_map fst vs),
    <- (length_map (fun p : vec2 => m00 m * fst p + m01 m * snd p) vs).
  rewrite T_2n by now rewrite !length_map.
  f_equal. clear. induction vs as [|[x y] vs IH]; simpl; [reflexivity|].
  now rewrite IH.
Qed.

Lemma einsum_of_mats_vecs (ms : list mat2) (vs : list vec2) :
  np.einsum_ijk_ik_ij (of_mats ms) (of_vecs vs)
  = match np.label_extent (length ms) (length vs) with
    | Some n =>
        Ok (of_vecs (map (fun i =>
              mat_vec (nth (np.bcast (length ms) i) ms (Mat2 0 0 0 0))
                      (nth (np.bcast (length vs) i) vs (0, 0)))
              (seq 0 n)))
    | None => Raise ValueError
    end.
Proof.
  unfold np.einsum_ijk_ik_ij. cbn [shape of_mats of_vecs].
  destruct (np.label_extent (length ms) (length vs)) as [n|];
    [|reflexivity].
  replace (np.label_extent 2 2) with (Some 2%nat) by reflexivity.
  rewrite tabulate_n2. do 2 f_equal. apply map_ext. intros i.
  unfold rsum. cbn [seq map fold_right].
  replace (np.bcast 2 0) with 0%nat by reflexivity.
  replace (np.bcast 2 1) with 1%nat by reflexivity.
  destruct (item_of_mats ms (np.bcast (length ms) i)) as (H0 & H1 & H2 & H3).
  fold (of_mats ms). fold (of_vecs vs).
  rewrite H0, H1, H2, H3, item_of_vecs_0, item_of_vecs_1.
  unfold mat_vec. f_equal; ring.
Qed.

(** Whatever the keyword support of the installation, the batched path
    returns what the contraction returns, unless that is a TypeError of
    its own. *)
Lemma rotate_vector_collection_batched (ms : list mat2) (vs : list vec2)
  (optimize : bool) :
  rotate_vector_collection (of_mats ms) (of_vecs vs) optimize
  = np.einsum_ijk_ik_ij (of_mats ms) (of_vecs vs).
Proof.
  unfold rotate_vector_collection. cbn [shape of_mats].
  replace (shape_eqb _ _) with false
    by (unfold shape_eqb; destruct (list_eq_dec _ _ _); congruence).
  unfold einsum. rewrite einsum_of_mats_vecs.
  destruct einsum_optimize_kw;
    destruct (np.label_extent _ _); reflexivity.
Qed.

End Apply.

(** C7: for every 2x2 matrix M and every batch of N 2D vectors,
    [rotate_vector_collection] called with M itself (shape (2, 2), the
    shared mode) returns the same result as called with the batch of N
    copies of M (shape (N, 2, 2), the batched mode), namely M applied to
    every vector; the value of the [optimize] flag of either call is
    immaterial. *)
Theorem rotate_vector_collection_shared_eq_batched
  {numpy : NumPy} (M : mat2) (vs : list vec2) (o1 o2 : bool) :
  rotate_vector_collection (of_mat M) (of_vecs vs) o1
  = rotate_vector_collection (of_mats (repeat M (length vs))) (of_vecs vs) o2
  /\ rotate_vector_collection (of_mat M) (of_vecs vs) o1
     = Ok (of_vecs (map (mat_vec M) vs)).
Proof.
  split; [|apply rotate_vector_collection_shared].
  rewrite rotate_vector_collection_shared, rotate_vector_collection_batched,
    einsum_of_mats_vecs, repeat_length.
  unfold np.label_extent. rewrite Nat.eqb_refl. do 2 f_equal.
  rewrite <- (map_seq_nth (mat_vec M) vs (0, 0)).
  apply map_ext_in. intros i Hi. apply in_seq in Hi.
  assert (Hb : np.bcast (length vs) i = i).
  { unfold np.bcast. destruct (Nat.eqb_spec (length vs) 1); lia. }
  rewrite Hb, nth_repeat_lt by lia. reflexivity.
Qed.

(** C9 (as amended): in batched mode, when the matrix batch and the
    vector batch have different lengths and neither length is 1, the
    contraction raises ValueError and [rotate_vector_collection] raises
    the same error: it validates nothing beforehand and its only handler
    is for the TypeError of an unknown [optimize] keyword.  When one of
    the two batches has length 1 it is broadcast against the other and a
    result is returned. *)
Theorem rotate_vector_collection_length_mismatch
  {numpy : NumPy} (ms : list mat2) (vs : list vec2) (optimize : bool) :
  (length ms <> length vs -> length ms <> 1%nat -> length vs <> 1%nat ->
   np.einsum_ijk_ik_ij (of_mats ms) (of_vecs vs) = Raise ValueError
   /\ rotate_vector_collection (of_mats ms) (of_vecs vs) optimize
      = Raise ValueError)
  /\ (forall m : mat2,
        rotate_vector_collection (of_mats [m]) (of_vecs vs) optimize
        = Ok (of_vecs (map (mat_vec m) vs)))
  /\ (forall v : vec2,
        rotate_vector_collection (of_mats ms) (of_vecs [v]) optimize
        = Ok (of_vecs (map (fun m => mat_vec m v) ms))).
Proof.
  split; [|split].
  - intros Hne Hm Hv.
    assert (H : np.einsum_ijk_ik_ij (of_mats ms) (of_vecs vs)
                = Raise ValueError).
    { rewrite einsum_of_mats_vecs. unfold np.label_extent.
      destruct (Nat.eqb_spec (length ms) (length vs)); [contradiction|].
      destruct (Nat.eqb_spec (length ms) 1); [contradiction|].
      destruct (Nat.eqb_spec (length vs) 1); [contradiction|].
      reflexivity. }
    split; [exact H|].
    now rewrite rotate_vector_collection_batched.
  - intros m.
    rewrite rotate_vector_collection_batched, einsum_of_mats_vecs.
    assert (E : np.label_extent (length [m]) (length vs) = Some (length vs)).
    { unfold np.label_extent. cbn [length].
      destruct (Nat.eqb_spec 1 (length vs)) as [<-|]; reflexivity. }
    rewrite E. do 2 f_equal.
    rewrite <- (map_seq_nth (mat_vec m) vs (0, 0)).
    apply map_ext_in. intros i Hi. apply in_seq in Hi.
    rewrite (bcast_lt (length vs)) by lia. reflexivity.
  - intros v.
    rewrite rotate_vector_collection_batched, einsum_of_mats_vecs.
    assert (E : np.label_extent (length ms) (length [v]) = Some (length ms)).
    { unfold np.label_extent. cbn [length].
      destruct (Nat.eqb_spec (length ms) 1); reflexivity. }
    rewrite E. do 2 f_equal.
    rewrite <- (map_seq_nth (fun m => mat_vec m v) ms (Mat2 0 0 0 0)).
    apply map_ext_in. intros i Hi. apply in_seq in Hi.
    rewrite (bcast_lt (length ms)) by lia. reflexivity.
Qed.

Lemma rotate_vector_collection_length_mismatch_witness :
  np.einsum_ijk_ik_ij (of_mats [identity2; identity2])
                      (of_vecs [(1, 0); (0, 1); (1, 1)])
  = Raise ValueError
  /\ rotate_vector_collection (numpy := lcg16_old)
       (of_mats [identity2; identity2]) (of_vecs [(1, 0); (0, 1); (1, 1)])
       true
     = Raise ValueError.
Proof.
  apply (rotate_vector_collection_length_mismatch (numpy := lcg16_old));
    simpl; lia.
Defined.

(** C9 fails as stated: a matrix batch of length 1 against a vector
    batch of length 2 differs in length, yet the contraction broadcasts
    the single matrix and a result is returned. *)
Lemma rotate_vector_collection_broadcasts_single_matrix :
  length [Mat2 0 1 (-1) 0] <> length [(1, 0); (0, 1)]
  /\ rotate_vector_collection (numpy := lcg16)
       (of_mats [Mat2 0 1 (-1) 0]) (of_vecs [(1, 0); (0, 1)]) false
     = Ok (of_vecs [(0, -1); (1, 0)]).
Proof.
  split; [simpl; lia|].
  rewrite rotate_vector_collection_batched, einsum_of_mats_vecs.
  simpl. unfold mat_vec; simpl. do 2 f_equal.
  repeat (f_equal; try lra).
Qed.

(** ** Random rotation *)

Lemma broadcast_shapes_nil_r (s : list nat) : broadcast_shapes s [] = Some s.
Proof.
  unfold broadcast_shapes. cbn [rev].
  destruct (rev s) eqn:E; cbn [broadcast_rev option_map];
    now rewrite <- E, rev_involutive.
Qed.

Lemma binop_scalar_ok (f : R -> R -> R) (a : ndarray) (x : R) :
  exists r, binop f a (scalar x) = Ok r /\ shape r = shape a.
Proof.
  unfold binop. cbn [shape scalar]. rewrite broadcast_shapes_nil_r.
  eexists; split; reflexivity.
Qed.

Lemma normalized_vectors_single (x y : R) :
  exists r, normalized_vectors (mk_ndarray [2%nat] [x; y]) = Ok r.
Proof. eexists. reflexivity. Qed.

(** C3: for every input and every generator state, [random_rotation]
    draws its angle and its direction (three samples) and then raises
    TypeError at the call of the one-parameter
    [rotation_matrices_from_angles] with two arguments; no matrix is
    built and no vector is rotated. *)
Theorem random_rotation_raises_TypeError
  {numpy : NumPy} (vectors : ndarray) (st : rng_state) :
  random_rotation vectors st = (Raise TypeError, snd (draw 3 st)).
Proof.
  unfold random_rotation, bind, random_random, lift.
  cbn [size_of fold_right Nat.mul Nat.add draw].
  destruct (random_sample st) as [x st1].
  destruct (random_sample st1) as [y st2].
  destruct (random_sample st2) as [z st3].
  cbn [snd].
  destruct (binop_scalar_ok Rmult (mk_ndarray [1%nat] [x]) PI) as (a & -> & _).
  destruct (normalized_vectors_single y z) as (e & ->).
  destruct (binop_scalar_ok Rmult e 2) as (t & -> & _).
  destruct (binop_scalar_ok Rminus t 1) as (d & -> & _).
  reflexivity.
Qed.

(** ** Basis vectors to matrices *)

Lemma length_list_times (l : list R) (n : nat) :
  length (list_times l n) = (n * length l)%nat.
Proof.
  unfold list_times. induction n as [|n IH]; simpl; [reflexivity|].
  now rewrite length_app, IH.
Qed.

(** The reference basis is reshaped from 2N values into N rows of 3:
    possible for the empty batch only. *)
Lemma reshape_basis (x y : R) (N : nat) :
  np.reshape (array1 (list_times [x; y] N)) [N; 3%nat]
  = if (N =? 0)%nat then Ok (mk_ndarray [0%nat; 3%nat] [])
    else Raise ValueError.
Proof.
  unfold np.reshape. cbn [data array1 size_of fold_right].
  rewrite length_list_times. cbn [length].
  destruct N as [|N]; [reflexivity|].
  destruct (Nat.eqb_spec (S N * (3 * 1)) (S N * 2)); [lia|reflexivity].
Qed.

Lemma tabulate_empty (s : list nat) (f : list nat -> R) :
  tabulate (0%nat :: s) f = mk_ndarray (0%nat :: s) [].
Proof. reflexivity. Qed.

Lemma setitem_col_empty (r r' v : ndarray) (i j p q : nat) :
  shape r = [0%nat; p; q] ->
  setitem_col r i j v = Ok r' ->
  r' = mk_ndarray [0%nat; p; q] [].
Proof.
  intros Hs. unfold setitem_col. rewrite Hs.
  destruct ((i <? p)%nat && (j <? q)%nat); [|discriminate].
  destruct (drop_ones (shape v)) as [|m [|? ?]]; try discriminate.
  - rewrite tabulate_empty. congruence.
  - destruct (m =? 0)%nat; [|discriminate].
    rewrite tabulate_empty. congruence.
Qed.

(** C4 (as amended): [rotation2d] reshapes 2N reference values into an
    (N, 3) array.  For every batch of N >= 1 vectors that reshape is
    invalid and the call raises ValueError, before any dot product is
    computed.  The reshape is valid only for the empty batch, and there
    the call either raises or returns the empty (0, 2, 2) array: no
    wrong dot product is ever returned. *)
Theorem rotation2d_reshape (ux uy : ndarray) (N : nat) (rest : list nat) :
  shape ux = N :: rest ->
  (N <> 0%nat ->
     np.reshape (array1 (list_times [1; 0] N)) [N; 3%nat] = Raise ValueError
     /\ rotation2d ux uy = Raise ValueError)
  /\ (N = 0%nat ->
        (exists e, rotation2d ux uy = Raise e)
        \/ rotation2d ux uy = Ok (mk_ndarray [0; 2; 2]%nat [])).
Proof.
  intros Hs. split.
  - intros HN. unfold rotation2d, shape0. rewrite Hs. cbn [rbind].
    rewrite !reshape_basis.
    destruct (Nat.eqb_spec N 0); [contradiction|]. split; reflexivity.
  - intros ->. unfold rotation2d, shape0. rewrite Hs. cbn [rbind].
    rewrite !reshape_basis. cbn [Nat.eqb rbind].
    repeat match goal with
    | |- context [rbind ?m _] =>
        let H := fresh "H" in
        destruct m eqn:H; cbn [rbind]; [|left; eexists; reflexivity]
    end.
    right. f_equal.
    repeat match goal with
    | H : setitem_col _ _ _ _ = Ok _ |- _ =>
        apply setitem_col_empty with (p := 2%nat) (q := 2%nat) in H;
        [subst|reflexivity]
    end.
    reflexivity.
Qed.

Lemma rotation2d_reshape_witness :
  rotation2d (of_vecs [(1, 0)]) (of_vecs [(0, 1)]) = Raise ValueError
  /\ ((exists e, rotation2d (of_vecs []) (of_vecs []) = Raise e)
      \/ rotation2d (of_vecs []) (of_vecs [])
         = Ok (mk_ndarray [0; 2; 2]%nat [])).
Proof.
  split.
  - destruct (rotation2d_reshape (of_vecs [(1, 0)]) (of_vecs [(0, 1)])
                1%nat [2%nat] eq_refl) as [H _].
    apply H. lia.
  - destruct (rotation2d_reshape (of_vecs []) (of_vecs [])
                0%nat [2%nat] eq_refl) as [_ H].
    apply H. reflexivity.
Defined.

(** C4 fails as stated: for the empty batch the reshape into (0, 3) is
    valid, yet no wrong dot product comes back; the call raises at the
    first dot product of a 3-column row set with a 2-column one. *)
Lemma rotation2d_empty_batch :
  np.reshape (array1 (list_times [1; 0] 0)) [0; 3]%nat
  = Ok (mk_ndarray [0; 3]%nat [])
  /\ rotation2d (of_vecs []) (of_vecs []) = Raise ValueError.
Proof. split; reflexivity. Qed.

(** ** Row-wise arithmetic on batches *)

Lemma binop_cols (f : R -> R -> R) (a b : ndarray) (N ca cb : nat) :
  shape a = [N; ca] -> shape b = [N; cb] ->
  (ca = 2 /\ cb = 2 \/ ca = 2 /\ cb = 1 \/ ca = 1 /\ cb = 2)%nat ->
  binop f a b
  = Ok (of_vecs (map (fun i =>
          (f (item a [i; np.bcast ca 0]) (item b [i; np.bcast cb 0]),
           f (item a [i; np.bcast ca 1]) (item b [i; np.bcast cb 1])))
          (seq 0 N))).
Proof.
  intros Ha Hb Hc. unfold binop. rewrite Ha, Hb.
  assert (Hbs : broadcast_shapes [N; ca] [N; cb] = Some [N; 2%nat]).
  { unfold broadcast_shapes. cbn [rev app broadcast_rev].
    rewrite Nat.eqb_refl.
    destruct Hc as [[-> ->]|[[-> ->]|[-> ->]]]; reflexivity. }
  rewrite Hbs, tabulate_n2. do 2 f_equal.
  apply map_ext_in. intros i Hi. apply in_seq in Hi.
  unfold bidx. cbn [length Nat.sub skipn combine map fst snd].
  fold (np.bcast N i). fold (np.bcast ca 0) (np.bcast ca 1).
  fold (np.bcast cb 0) (np.bcast cb 1).
  rewrite bcast_lt by lia. reflexivity.
Qed.

Lemma item_column (l : list R) (n i : nat) :
  item (mk_ndarray [n; 1%nat] l) [i; 0%nat] = nth i l 0.
Proof.
  unfold item; cbn [shape data].
  replace (ravel _ _) with i by (simpl; lia). reflexivity.
Qed.

(** A batch of vectors combined with one number per row, shape (N, 1). *)
Lemma binop_vecs_column (f : R -> R -> R) (vs : list vec2) (l : list R) :
  length l = length vs ->
  binop f (of_vecs vs) (mk_ndarray [length vs; 1%nat] l)
  = Ok (of_vecs (map (fun p => (f (fst (fst p)) (snd p),
                                f (snd (fst p)) (snd p)))
                     (combine vs l))).
Proof.
  intros Hlen.
  rewrite (binop_cols f _ _ (length vs) 2 1) by (reflexivity || lia).
  do 2 f_equal.
  rewrite <- (map_seq_nth2 (fun (v : vec2) c => (f (fst v) c, f (snd v) c))
                vs l (0, 0) 0) by (symmetry; exact Hlen).
  apply map_ext. intros i.
  replace (np.bcast 2 0) with 0%nat by reflexivity.
  replace (np.bcast 2 1) with 1%nat by reflexivity.
  replace (np.bcast 1 0) with 0%nat by reflexivity.
  replace (np.bcast 1 1) with 0%nat by reflexivity.
  now rewrite item_of_vecs_0, item_of_vecs_1, item_column.
Qed.

Lemma binop_column_vecs (f : R -> R -> R) (vs : list vec2) (l : list R) :
  length l = length vs ->
  binop f (mk_ndarray [length vs; 1%nat] l) (of_vecs vs)
  = Ok (of_vecs (map (fun p => (f (snd p) (fst (fst p)),
                                f (snd p) (snd (fst p))))
                     (combine vs l))).
Proof.
  intros Hlen.
  rewrite (binop_cols f _ _ (length vs) 1 2) by (reflexivity || lia).
  do 2 f_equal.
  rewrite <- (map_seq_nth2 (fun (v : vec2) c => (f c (fst v), f c (snd v)))
                vs l (0, 0) 0) by (symmetry; exact Hlen).
  apply map_ext. intros i.
  replace (np.bcast 2 0) with 0%nat by reflexivity.
  replace (np.bcast 2 1) with 1%nat by reflexivity.
  replace (np.bcast 1 0) with 0%nat by reflexivity.
  replace (np.bcast 1 1) with 0%nat by reflexivity.
  now rewrite item_of_vecs_0, item_of_vecs_1, item_column.
Qed.

Lemma binop_vecs_vecs (f : R -> R -> R) (us vs : list vec2) :
  length us = length vs ->
  binop f (of_vecs us) (of_vecs vs)
  = Ok (of_vecs (map (fun p => (f (fst (fst p)) (fst (snd p)),
                                f (snd (fst p)) (snd (snd p))))
                     (combine us vs))).
Proof.
  intros Hlen.
  rewrite (binop_cols f _ _ (length us) 2 2);
    [|reflexivity|cbn [shape of_vecs]; now rewrite Hlen|lia].
  do 2 f_equal.
  rewrite <- (map_seq_nth2 (fun (u v : vec2) =>
                (f (fst u) (fst v), f (snd u) (snd v)))
                us vs (0, 0) (0, 0)) by exact Hlen.
  apply map_ext. intros i.
  replace (np.bcast 2 0) with 0%nat by reflexivity.
  replace (np.bcast 2 1) with 1%nat by reflexivity.
  now rewrite !item_of_vecs_0, !item_of_vecs_1.
Qed.

Lemma sum_axis1_of_vecs (vs : list vec2) :
  sum_axis1 (of_vecs vs)
  = mk_ndarray [length vs] (map (fun v => fst v + snd v) vs).
Proof.
  unfold sum_axis1. cbn [shape of_vecs]. rewrite tabulate_1. f_equal.
  rewrite <- (map_seq_nth (fun v : vec2 => fst v + snd v) vs (0, 0)).
  apply map_ext. intros i. unfold rsum. cbn [seq map fold_right].
  fold (of_vecs vs). rewrite item_of_vecs_0, item_of_vecs_1. ring.
Qed.

Lemma elementwise_norm_of_vecs (vs : list vec2) :
  elementwise_norm (of_vecs vs) = mk_ndarray [length vs] (map norm2 vs).
Proof.
  unfold elementwise_norm. cbn [np.atleast_2d shape of_vecs].
  fold (of_vecs vs). rewrite tabulate_n2.
  erewrite map_ext
    by (intros i; rewrite item_of_vecs_0, item_of_vecs_1; reflexivity).
  rewrite (map_seq_nth (fun v : vec2 => (fst v * fst v, snd v * snd v))
             vs (0, 0)).
  rewrite sum_axis1_of_vecs, length_map, map_map.
  unfold np.sqrt. cbn [shape data]. now rewrite map_map.
Qed.

Lemma elementwise_dot_of_vecs (us vs : list vec2) :
  length us = length vs ->
  elementwise_dot (of_vecs us) (of_vecs vs)
  = Ok (mk_ndarray [length us]
          (map (fun p => dot2 (fst p) (snd p)) (combine us vs))).
Proof.
  intros Hlen. unfold elementwise_dot. cbn [np.atleast_2d shape of_vecs].
  fold (of_vecs us). fold (of_vecs vs).
  rewrite binop_vecs_vecs by exact Hlen. cbn [rbind].
  rewrite sum_axis1_of_vecs, length_map, (length_combine us vs), <- Hlen,
    Nat.min_id, map_map.
  reflexivity.
Qed.

Lemma reshape_column (l : list R) (sh : list nat) (n : nat) :
  length l = n ->
  np.reshape (mk_ndarray sh l) [n; 1%nat] = Ok (mk_ndarray [n; 1%nat] l).
Proof.
  intros H. unfold np.reshape. cbn [data size_of fold_right].
  replace (n * (1 * 1))%nat with n by lia.
  now rewrite H, Nat.eqb_refl.
Qed.

Lemma combine_map_r {A B C} (f : A -> B -> C) (g : A -> B) (l : list A) :
  map (fun p => f (fst p) (snd p)) (combine l (map g l))
  = map (fun x => f x (g x)) l.
Proof.
  induction l as [|x l IH]; simpl; [reflexivity|]. now rewrite IH.
Qed.

Lemma normalized_vectors_of_vecs (vs : list vec2) :
  normalized_vectors (of_vecs vs) = Ok (of_vecs (map normalize vs)).
Proof.
  unfold normalized_vectors. cbn [np.atleast_2d shape of_vecs hd].
  fold (of_vecs vs).
  rewrite elementwise_norm_of_vecs, reshape_column by apply length_map.
  cbn [rbind]. rewrite binop_vecs_column by apply length_map.
  do 2 f_equal.
  apply (combine_map_r (fun (v : vec2) c => (fst v / c, snd v / c)) norm2).
Qed.

(** ** Plane geometry *)

Lemma dot2_self_nonneg (v : vec2) : 0 <= dot2 v v.
Proof. unfold dot2. nra. Qed.

Lemma norm2_sqr (v : vec2) : norm2 v * norm2 v = dot2 v v.
Proof. apply sqrt_sqrt, dot2_self_nonneg. Qed.

Lemma norm2_pos (v : vec2) : dot2 v v <> 0 -> 0 < norm2 v.
Proof.
  intros H. pose proof (dot2_self_nonneg v).
  apply sqrt_lt_R0. lra.
Qed.


Lemma dot2_self_zero (v : vec2) : dot2 v v = 0 -> fst v = 0 /\ snd v = 0.
Proof. unfold dot2. intros E. split; nra. Qed.

Lemma nonzero_dot2 (v : vec2) : nonzero v -> dot2 v v <> 0.
Proof.
  unfold nonzero. intros H E. apply H.
  destruct (dot2_self_zero v E) as [E1 E2].
  destruct v as [x y]; cbn [fst snd] in *. now subst.
Qed.

Lemma cross2_nonzero_l (v w : vec2) : cross2 v w <> 0 -> dot2 v v <> 0.
Proof.
  unfold cross2. intros H E. apply H.
  destruct (dot2_self_zero v E) as [-> ->]. ring.
Qed.

Lemma cross2_nonzero_r (v w : vec2) : cross2 v w <> 0 -> dot2 w w <> 0.
Proof.
  unfold cross2. intros H E. apply H.
  destruct (dot2_self_zero w E) as [-> ->]. ring.
Qed.

Lemma normalize_unit (p : vec2) : dot2 p p <> 0 -> norm2 (normalize p) = 1.
Proof.
  intros H. pose proof (norm2_pos p H) as Hpos.
  pose proof (norm2_sqr p) as Hsq.
  unfold norm2 at 1. unfold normalize, dot2 at 1. cbn [fst snd].
  replace (fst p / norm2 p * (fst p / norm2 p)
           + snd p / norm2 p * (snd p / norm2 p))
    with (dot2 p p / (norm2 p * norm2 p)) by (unfold dot2; field; lra).
  rewrite Hsq. unfold Rdiv. rewrite Rinv_r by exact H. apply sqrt_1.
Qed.

Lemma dot2_normalize_r (v p : vec2) :
  dot2 v (normalize p) = dot2 v p / norm2 p.
Proof. unfold dot2, normalize; cbn [fst snd]. unfold Rdiv. ring. Qed.

(** One Gram-Schmidt step, in coordinates: the rejection of [w / |w|]
    from [v / |v|] is a multiple of [v] turned by a quarter turn. *)
Lemma rejection_coordinates (v w : vec2) :
  dot2 v v <> 0 -> dot2 w w <> 0 ->
  let e_v := normalize v in
  let e_w := normalize w in
  let d := dot2 e_v e_w in
  let k := cross2 v w / (norm2 w * dot2 v v) in
  fst e_w - d * fst e_v = - snd v * k
  /\ snd e_w - d * snd e_v = fst v * k.
Proof.
  intros Hv Hw.
  pose proof (norm2_pos v Hv) as Hnv. pose proof (norm2_pos w Hw) as Hnw.
  pose proof (norm2_sqr v) as Hsv.
  cbv zeta. unfold normalize, dot2 at 1 3; cbn [fst snd].
  rewrite <- Hsv. unfold dot2 in Hsv. unfold cross2.
  destruct v as [x y], w as [a b]; cbn [fst snd] in *.
  revert Hnv Hnw Hsv. generalize (norm2 (x, y)) (norm2 (a, b)).
  intros nv nw Hnv Hnw Hsv.
  split; (field_simplify_eq; [|lra]);
    replace (nv ^ 2) with (x * x + y * y) by (rewrite <- Hsv; ring); ring.
Qed.

Lemma perpendicular_unit_orthogonal (v w : vec2) :
  cross2 v w <> 0 ->
  norm2 (perpendicular v w) = 1 /\ dot2 v (perpendicular v w) = 0.
Proof.
  intros Hc.
  pose proof (cross2_nonzero_l v w Hc) as Hv.
  pose proof (cross2_nonzero_r v w Hc) as Hw.
  destruct (rejection_coordinates v w Hv Hw) as [E1 E2].
  unfold perpendicular. cbv zeta in *. rewrite E1, E2.
  set (k := cross2 v w / (norm2 w * dot2 v v)) in *.
  assert (Hk : k <> 0).
  { unfold k. pose proof (norm2_pos w Hw).
    apply Rmult_integral_contrapositive_currified; [exact Hc|].
    apply Rinv_neq_0_compat.
    apply Rmult_integral_contrapositive_currified; [lra|exact Hv]. }
  assert (Hp : dot2 (- snd v * k, fst v * k) (- snd v * k, fst v * k) <> 0).
  { unfold dot2 in *; cbn [fst snd].
    replace (- snd v * k * (- snd v * k) + fst v * k * (fst v * k))
      with ((fst v * fst v + snd v * snd v) * (k * k)) by ring.
    apply Rmult_integral_contrapositive_currified; [exact Hv|].
    apply Rmult_integral_contrapositive_currified; exact Hk. }
  split.
  - apply normalize_unit, Hp.
  - rewrite dot2_normalize_r.
    replace (dot2 v (- snd v * k, fst v * k)) with 0
      by (unfold dot2; cbn [fst snd]; ring).
    unfold Rdiv. ring.
Qed.

(** ** Random perpendicular directions *)

Lemma pairs_flat (n : nat) (l : list R) :
  length l = (2 * n)%nat ->
  flat_map vec_row (pairs l) = l /\ length (pairs l) = n.
Proof.
  revert l; induction n as [|n IH]; intros l Hl.
  - destruct l; [split; reflexivity|discriminate].
  - destruct l as [|x [|y l]]; simpl in Hl; try lia.
    destruct (IH l) as [E1 E2]; [lia|].
    cbn [pairs flat_map vec_row fst snd app length].
    rewrite E1, E2. split; reflexivity.
Qed.

Section Perpendicular.

Context {numpy : NumPy}.

Lemma draw_length (n : nat) (st : rng_state) : length (fst (draw n st)) = n.
Proof.
  revert st; induction n as [|n IH]; intros st; [reflexivity|].
  cbn [draw]. destruct (random_sample st) as [x st1].
  specialize (IH st1). destruct (draw n st1) as [xs st2].
  cbn [fst length] in *. now rewrite IH.
Qed.

Lemma length_sample_vectors (n : nat) (st : rng_state) :
  length (sample_vectors n st) = n.
Proof.
  unfold sample_vectors. apply pairs_flat. rewrite draw_length. simpl. lia.
Qed.

Lemma random_random_n2 (n : nat) (st : rng_state) :
  random_random [n; 2%nat] st
  = (Ok (of_vecs (sample_vectors n st)), snd (draw (size_of [n; 2%nat]) st)).
Proof.
  unfold random_random, of_vecs.
  rewrite length_sample_vectors. unfold sample_vectors.
  pose proof (draw_length (size_of [n; 2%nat]) st) as Hl.
  destruct (draw (size_of [n; 2%nat]) st) as [xs st']. cbn [fst snd] in *.
  destruct (pairs_flat n xs) as [E _]; [rewrite Hl; simpl; lia|].
  now rewrite E.
Qed.

Lemma binop_vecs_column_n (f : R -> R -> R) (vs : list vec2) (l : list R)
  (n : nat) :
  length vs = n -> length l = n ->
  binop f (of_vecs vs) (mk_ndarray [n; 1%nat] l)
  = Ok (of_vecs (map (fun p => (f (fst (fst p)) (snd p),
                                f (snd (fst p)) (snd p)))
                     (combine vs l))).
Proof. intros <- H. now apply binop_vecs_column. Qed.

Lemma binop_column_vecs_n (f : R -> R -> R) (vs : list vec2) (l : list R)
  (n : nat) :
  length vs = n -> length l = n ->
  binop f (mk_ndarray [n; 1%nat] l) (of_vecs vs)
  = Ok (of_vecs (map (fun p => (f (snd p) (fst (fst p)),
                                f (snd p) (snd (fst p))))
                     (combine vs l))).
Proof. intros <- H. now apply binop_column_vecs. Qed.

End Perpendicular.

Section PerpendicularDirections.

Context {numpy : NumPy}.

Lemma random_perpendicular_directions_of_vecs
  (vs : list vec2) (seed : option Z) (st : rng_state) :
  random_perpendicular_directions (of_vecs vs) seed st
  = (Ok (of_vecs (map (fun p => perpendicular (fst p) (snd p))
                      (combine vs (sample_vectors (length vs)
                                     (context_state seed st))))),
     match seed with
     | Some _ => st
     | None => snd (draw (size_of [length vs; 2%nat]) st)
     end).
Proof.
  unfold random_perpendicular_directions.
  cbn [np.atleast_2d of_vecs shape hd]. fold (of_vecs vs).
  unfold bind.
  set (ws := sample_vectors (length vs) (context_state seed st)).
  assert (Hws : length ws = length vs) by apply length_sample_vectors.
  assert (Hdraw :
    with_NumpyRNGContext seed (random_random [length vs; 2%nat]) st
    = (Ok (of_vecs ws),
       match seed with
       | Some _ => st
       | None => snd (draw (size_of [length vs; 2%nat]) st)
       end)).
  { unfold with_NumpyRNGContext, ws, context_state.
    destruct seed as [s|]; rewrite random_random_n2; reflexivity. }
  rewrite Hdraw. unfold lift. f_equal.
  rewrite !elementwise_norm_of_vecs.
  rewrite !reshape_column by (rewrite length_map; auto).
  cbn [rbind].
  rewrite !binop_vecs_column_n by (rewrite ?length_map; auto).
  cbn [rbind].
  rewrite !(combine_map_r (fun (v : vec2) c => (fst v / c, snd v / c)) norm2).
  fold normalize.
  change (fun x : vec2 => (fst x / norm2 x, snd x / norm2 x)) with normalize.
  rewrite elementwise_dot_of_vecs by (rewrite !length_map; auto).
  cbn [rbind].
  rewrite reshape_column
    by (rewrite !length_map, length_combine, !length_map; lia).
  cbn [rbind].
  rewrite binop_column_vecs_n
    by (rewrite ?length_map, ?length_combine, ?length_map; lia).
  cbn [rbind].
  rewrite binop_vecs_vecs
    by (repeat rewrite ?length_map, ?length_combine; lia).
  cbn [rbind].
  rewrite elementwise_norm_of_vecs.
  rewrite reshape_column
    by (repeat rewrite ?length_map, ?length_combine; lia).
  cbn [rbind].
  rewrite binop_vecs_column_n
    by (repeat rewrite ?length_map, ?length_combine; lia).
  do 2 f_equal.
  clearbody ws. clear Hdraw. revert ws Hws.
  induction vs as [|v vs IH]; intros [|w ws] Hws; simpl in Hws;
    try discriminate; [reflexivity|].
  simpl. f_equal. apply IH. lia.
Qed.

(** A single vector is promoted to a batch of one. *)
Lemma random_perpendicular_directions_of_vec
  (v : vec2) (seed : option Z) (st : rng_state) :
  random_perpendicular_directions (of_vec v) seed st
  = random_perpendicular_directions (of_vecs [v]) seed st.
Proof. reflexivity. Qed.


(** Whatever the generator, the vector it draws is itself an input on
    which the rejection vanishes: the output is then no unit vector. *)
Lemma random_perpendicular_directions_own_draw
  (seed : option Z) (st : rng_state) (w : vec2) :
  sample_vectors 1 (context_state seed st) = [w] ->
  exists p,
    fst (random_perpendicular_directions (of_vecs [w]) seed st)
    = Ok (of_vecs [p])
    /\ norm2 p = 0.
Proof.
  intros Hw. rewrite random_perpendicular_directions_of_vecs.
  cbn [length fst]. rewrite Hw. cbn [combine map fst snd].
  eexists; split; [reflexivity|].
  assert (Hz : forall q : vec2, fst q = 0 -> snd q = 0 -> norm2 (normalize q) = 0).
  { intros q H1 H2. unfold normalize, norm2 at 1, dot2. cbn [fst snd].
    rewrite H1, H2. unfold Rdiv. rewrite !Rmult_0_l, Rplus_0_l.
    apply sqrt_0. }
  unfold perpendicular. cbv zeta. apply Hz; cbn [fst snd].
  - destruct (Req_dec (dot2 w w) 0) as [E|E].
    + destruct (dot2_self_zero w E) as [E1 E2].
      unfold normalize, dot2; cbn [fst snd]. rewrite E1, E2.
      unfold Rdiv. ring.
    + pose proof (normalize_unit w E) as Hu.
      pose proof (norm2_sqr (normalize w)) as Hs.
      rewrite Hu in Hs. rewrite <- Hs. ring.
  - destruct (Req_dec (dot2 w w) 0) as [E|E].
    + destruct (dot2_self_zero w E) as [E1 E2].
      unfold normalize, dot2; cbn [fst snd]. rewrite E1, E2.
      unfold Rdiv. ring.
    + pose proof (normalize_unit w E) as Hu.
      pose proof (norm2_sqr (normalize w)) as Hs.
      rewrite Hu in Hs. rewrite <- Hs. ring.
Qed.

End PerpendicularDirections.

(** C5 (as amended): for every batch of non-zero 2D vectors v, every
    seed and every generator state, provided no drawn vector w is
    parallel to its input vector (which includes that w is not zero),
    [random_perpendicular_directions] returns one vector p per input
    with |p| = 1 and v . p = 0; a single vector is treated as a batch of
    one. *)
Theorem random_perpendicular_directions_unit_orthogonal
  {numpy : NumPy} (vs : list vec2) (seed : option Z) (st : rng_state) :
  Forall nonzero vs ->
  Forall2 (fun v w => cross2 v w <> 0)
          vs (sample_vectors (length vs) (context_state seed st)) ->
  (exists ps,
     fst (random_perpendicular_directions (of_vecs vs) seed st)
     = Ok (of_vecs ps)
     /\ Forall2 (fun v p => norm2 p = 1 /\ dot2 v p = 0) vs ps)
  /\ (forall v : vec2,
        random_perpendicular_directions (of_vec v) seed st
        = random_perpendicular_directions (of_vecs [v]) seed st).
Proof.
  intros _ Hc. split; [|intros v; apply random_perpendicular_directions_of_vec].
  rewrite random_perpendicular_directions_of_vecs. cbn [fst].
  eexists; split; [reflexivity|].
  induction Hc as [|v w vs ws Hvw _ IH]; cbn [combine map]; constructor.
  - cbn [fst snd]. now apply perpendicular_unit_orthogonal.
  - exact IH.
Qed.

Lemma random_perpendicular_directions_unit_orthogonal_witness :
  (exists ps,
     fst (random_perpendicular_directions (numpy := lcg16)
            (of_vecs [(1, 0)]) (Some 1%Z) 0%Z)
     = Ok (of_vecs ps)
     /\ Forall2 (fun v p => norm2 p = 1 /\ dot2 v p = 0) [(1, 0)] ps)
  /\ (forall v : vec2,
        random_perpendicular_directions (numpy := lcg16)
          (of_vec v) (Some 1%Z) 0%Z
        = random_perpendicular_directions (numpy := lcg16)
            (of_vecs [v]) (Some 1%Z) 0%Z).
Proof.
  apply (random_perpendicular_directions_unit_orthogonal (numpy := lcg16)).
  - constructor; [|constructor]. unfold nonzero. intros E.
    apply (f_equal fst) in E. cbn in E. lra.
  - cbn. constructor; [|constructor]. unfold cross2; cbn. lra.
Defined.

(** C5 fails as stated: seeded with 0 the generator draws w = (0, 3/16),
    and for the non-zero input v = (0, 3/16), parallel to it, the
    rejection is the zero vector; what comes back has length 0 in this
    model (0/0 in the floating-point code), not 1. *)
Lemma random_perpendicular_directions_parallel_draw :
  nonzero (0, 3 / 16)
  /\ exists p,
       fst (random_perpendicular_directions (numpy := lcg16)
              (of_vecs [(0, 3 / 16)]) (Some 0%Z) 0%Z)
       = Ok (of_vecs [p])
       /\ norm2 p <> 1.
Proof.
  split.
  - unfold nonzero. intros E. apply (f_equal snd) in E. cbn in E. lra.
  - destruct (random_perpendicular_directions_own_draw (numpy := lcg16)
                (Some 0%Z) 0%Z (0, 3 / 16)) as (p & Hp & Hn).
    + cbn. repeat f_equal; lra.
    + exists p. split; [exact Hp|]. rewrite Hn. lra.
Qed.

(** C6: two calls of [random_perpendicular_directions] with the same
    input and the same seed return the same result whatever the state of
    the process-wide generator at either call; a seeded call leaves that
    state as it found it, so a later unseeded call returns what it would
    have returned without the seeded call. *)
Theorem random_perpendicular_directions_seeded
  {numpy : NumPy} (v : ndarray) (seed : Z) :
  (forall st1 st2 : rng_state,
     fst (random_perpendicular_directions v (Some seed) st1)
     = fst (random_perpendicular_directions v (Some seed) st2))
  /\ (forall st : rng_state,
        snd (random_perpendicular_directions v (Some seed) st) = st)
  /\ (forall (st : rng_state) (v' : ndarray),
        random_perpendicular_directions v' None
          (snd (random_perpendicular_directions v (Some seed) st))
        = random_perpendicular_directions v' None st).
Proof.
  assert (H : forall st,
    random_perpendicular_directions v (Some seed) st
    = (fst (random_perpendicular_directions v (Some seed) st), st)
    /\ forall st', fst (random_perpendicular_directions v (Some seed) st)
                   = fst (random_perpendicular_directions v (Some seed) st')).
  { intros st. unfold random_perpendicular_directions, bind,
      with_NumpyRNGContext, lift.
    destruct (random_random _ (seed_state seed)) as [[w|e] st0];
      split; reflexivity. }
  split; [|split].
  - intros st1 st2. apply H.
  - intros st. destruct (H st) as [E _]. now rewrite E.
  - intros st v'. destruct (H st) as [E _]. now rewrite E.
Qed.

(** ** Vector pairs to matrices *)

Lemma angles_between_of_vecs (us ws : list vec2) :
  length us = length ws ->
  angles_between_list_of_vectors (of_vecs us) (of_vecs ws)
  = Ok (array1 (map (fun p => signed_angle (fst p) (snd p))
                    (combine us ws))).
Proof.
  intros Hlen. unfold angles_between_list_of_vectors.
  cbn [shape of_vecs]. rewrite <- Hlen, Nat.eqb_refl, tabulate_1.
  fold (of_vecs us). fold (of_vecs ws).
  unfold array1. rewrite length_map, length_combine, <- Hlen, Nat.min_id.
  do 2 f_equal.
  rewrite <- (map_seq_nth2 signed_angle us ws (0, 0) (0, 0)) by exact Hlen.
  apply map_ext. intros i.
  now rewrite !item_of_vecs_0, !item_of_vecs_1, <- !surjective_pairing.
Qed.

Lemma rotation_matrices_from_vectors_of_vecs (v0 v1 : list vec2) :
  length v0 = length v1 ->
  rotation_matrices_from_vectors (of_vecs v0) (of_vecs v1)
  = Ok (of_mats (map (fun p =>
          rot (signed_angle (normalize (fst p)) (normalize (snd p))))
          (combine v0 v1))).
Proof.
  intros Hlen. unfold rotation_matrices_from_vectors.
  rewrite !normalized_vectors_of_vecs. cbn [rbind].
  rewrite angles_between_of_vecs by (rewrite !length_map; exact Hlen).
  cbn [rbind]. rewrite rotation_matrices_from_angles_array1.
  do 2 f_equal. rewrite map_map.
  clear. revert v1. induction v0 as [|u v0 IH]; intros [|w v1];
    simpl; try reflexivity.
  f_equal. apply IH.
Qed.

Lemma norm2_scale2 (a : R) (v : vec2) :
  0 < a -> norm2 (scale2 a v) = a * norm2 v.
Proof.
  intros Ha. unfold norm2, scale2, dot2; cbn [fst snd].
  replace (a * fst v * (a * fst v) + a * snd v * (a * snd v))
    with ((a * a) * (fst v * fst v + snd v * snd v)) by ring.
  rewrite sqrt_mult; [|nra|nra].
  rewrite sqrt_square by lra. reflexivity.
Qed.

Lemma normalize_scale2 (a : R) (v : vec2) :
  0 < a -> nonzero v -> normalize (scale2 a v) = normalize v.
Proof.
  intros Ha Hv. pose proof (norm2_pos v (nonzero_dot2 v Hv)) as Hn.
  unfold normalize. rewrite norm2_scale2 by exact Ha.
  unfold scale2; cbn [fst snd]. f_equal; field; lra.
Qed.

Lemma map_normalize_scale2 (a : R) (vs : list vec2) :
  0 < a -> Forall nonzero vs ->
  map normalize (map (scale2 a) vs) = map normalize vs.
Proof.
  intros Ha H. rewrite map_map. apply map_ext_in. intros v Hv.
  apply normalize_scale2; [exact Ha|].
  rewrite Forall_forall in H. now apply H.
Qed.

(** C10: for every two batches of non-zero 2D vectors and every two
    positive scalars a and b, [rotation_matrices_from_vectors] returns
    for the batches scaled by a and by b what it returns for the batches
    themselves: both inputs are normalised before the angle is taken. *)
Theorem rotation_matrices_from_vectors_scale_invariant
  (v0 v1 : list vec2) (a b : R) :
  0 < a -> 0 < b -> Forall nonzero v0 -> Forall nonzero v1 ->
  normalized_vectors (of_vecs (map (scale2 a) v0))
  = normalized_vectors (of_vecs v0)
  /\ normalized_vectors (of_vecs (map (scale2 b) v1))
     = normalized_vectors (of_vecs v1)
  /\ rotation_matrices_from_vectors (of_vecs (map (scale2 a) v0))
                                    (of_vecs (map (scale2 b) v1))
     = rotation_matrices_from_vectors (of_vecs v0) (of_vecs v1).
Proof.
  intros Ha Hb H0 H1.
  assert (E0 : normalized_vectors (of_vecs (map (scale2 a) v0))
               = normalized_vectors (of_vecs v0))
    by now rewrite !normalized_vectors_of_vecs, map_normalize_scale2.
  assert (E1 : normalized_vectors (of_vecs (map (scale2 b) v1))
               = normalized_vectors (of_vecs v1))
    by now rewrite !normalized_vectors_of_vecs, map_normalize_scale2.
  repeat split; try assumption.
  unfold rotation_matrices_from_vectors. now rewrite E0, E1.
Qed.

Lemma rotation_matrices_from_vectors_scale_invariant_witness :
  normalized_vectors (of_vecs (map (scale2 2) [(3, 4)]))
  = normalized_vectors (of_vecs [(3, 4)])
  /\ normalized_vectors (of_vecs (map (scale2 5) [(0, 1)]))
     = normalized_vectors (of_vecs [(0, 1)])
  /\ rotation_matrices_from_vectors (of_vecs (map (scale2 2) [(3, 4)]))
                                    (of_vecs (map (scale2 5) [(0, 1)]))
     = rotation_matrices_from_vectors (of_vecs [(3, 4)]) (of_vecs [(0, 1)]).
Proof.
  apply rotation_matrices_from_vectors_scale_invariant; try lra.
  - constructor; [|constructor]. unfold nonzero. intros E.
    apply (f_equal fst) in E. cbn in E. lra.
  - constructor; [|constructor]. unfold nonzero. intros E.
    apply (f_equal snd) in E. cbn in E. lra.
Defined.

Lemma normalize_unit_vector (v : vec2) : norm2 v = 1 -> normalize v = v.
Proof.
  intros H. unfold normalize. rewrite H, !Rdiv_1_r. now destruct v.
Qed.

(** The angle between two unit vectors has the cosine and the sine that
    the rotation of [rotation_matrices_from_angles] needs to carry the
    first onto the second. *)
Lemma signed_angle_trig (u v : vec2) :
  norm2 u = 1 -> norm2 v = 1 ->
  cos (signed_angle u v) = dot2 u v
  /\ sin (signed_angle u v) = snd u * fst v - fst u * snd v.
Proof.
  intros Hu Hv.
  pose proof (norm2_sqr u) as Su. rewrite Hu in Su.
  pose proof (norm2_sqr v) as Sv. rewrite Hv in Sv.
  unfold signed_angle. cbv zeta.
  rewrite !normalize_unit_vector by assumption.
  unfold dot2 in *. destruct u as [ux uy], v as [vx vy]; cbn [fst snd] in *.
  set (d := ux * vx + uy * vy). set (s := uy * vx - ux * vy).
  assert (Hds : d * d + s * s = 1).
  { unfold d, s.
    replace ((ux * vx + uy * vy) * (ux * vx + uy * vy)
             + (uy * vx - ux * vy) * (uy * vx - ux * vy))
      with ((ux * ux + uy * uy) * (vx * vx + vy * vy)) by ring.
    rewrite <- Su, <- Sv. ring. }
  assert (Hd : -1 <= d <= 1) by (split; nra).
  assert (Hsq : 1 - d² = s * s) by (unfold Rsqr; lra).
  destruct (Rle_dec 0 s) as [Hs|Hs].
  - split; [now apply cos_acos|].
    rewrite sin_acos, Hsq by exact Hd. now apply sqrt_square.
  - rewrite cos_neg, sin_neg. split; [now apply cos_acos|].
    rewrite sin_acos, Hsq by exact Hd.
    replace (s * s) with ((- s) * (- s)) by ring.
    rewrite sqrt_square by lra. ring.
Qed.

Lemma rot_signed_angle (u v : vec2) :
  norm2 u = 1 -> norm2 v = 1 ->
  mat_vec (rot (signed_angle u v)) u = v.
Proof.
  intros Hu Hv.
  pose proof (norm2_sqr u) as Su. rewrite Hu in Su.
  destruct (signed_angle_trig u v Hu Hv) as [Hc Hs].
  unfold mat_vec, rot; cbn [m00 m01 m10 m11]. rewrite Hc, Hs.
  unfold dot2 in *.
  destruct u as [ux uy], v as [vx vy]; cbn [fst snd] in *.
  f_equal.
  - replace ((ux * vx + uy * vy) * ux + (uy * vx - ux * vy) * uy)
      with (vx * (ux * ux + uy * uy)) by ring.
    rewrite <- Su. ring.
  - replace (- (uy * vx - ux * vy) * ux + (ux * vx + uy * vy) * uy)
      with (vy * (ux * ux + uy * uy)) by ring.
    rewrite <- Su. ring.
Qed.

(** Which angles do: the rotation by [theta] carries the unit vector
    [u] onto the unit vector [v] exactly when [theta] has the cosine
    [u . v] and the sine [u_y v_x - u_x v_y]. *)
Lemma rot_carries_iff (theta : R) (u v : vec2) :
  norm2 u = 1 ->
  mat_vec (rot theta) u = v
  <-> cos theta = dot2 u v /\ sin theta = snd u * fst v - fst u * snd v.
Proof.
  intros Hu.
  pose proof (norm2_sqr u) as Su. rewrite Hu in Su.
  unfold mat_vec, rot, dot2 in *; cbn [m00 m01 m10 m11].
  destruct u as [ux uy], v as [vx vy]; cbn [fst snd] in *.
  split.
  - intros E. injection E as <- <-. split.
    + replace (ux * (cos theta * ux + sin theta * uy)
               + uy * (- sin theta * ux + cos theta * uy))
        with (cos theta * (ux * ux + uy * uy)) by ring.
      rewrite <- Su. ring.
    + replace (uy * (cos theta * ux + sin theta * uy)
               - ux * (- sin theta * ux + cos theta * uy))
        with (sin theta * (ux * ux + uy * uy)) by ring.
      rewrite <- Su. ring.
  - intros [-> ->]. f_equal.
    + replace ((ux * vx + uy * vy) * ux + (uy * vx - ux * vy) * uy)
        with (vx * (ux * ux + uy * uy)) by ring.
      rewrite <- Su. ring.
    + replace (- (uy * vx - ux * vy) * ux + (ux * vx + uy * vy) * uy)
        with (vy * (ux * ux + uy * uy)) by ring.
      rewrite <- Su. ring.
Qed.

(** The orientation matters: the quarter turn that takes (1, 0) to
    (0, 1) counter-clockwise is not the angle whose matrix does so. *)
Example rot_quarter_turn : mat_vec (rot (PI / 2)) (1, 0) = (0, -1).
Proof.
  unfold mat_vec, rot; cbn [m00 m01 m10 m11 fst snd].
  rewrite cos_PI2, sin_PI2. f_equal; ring.
Qed.

(** C2: for every two batches of unit 2D vectors v0 and v1 of the same
    length, [rotation_matrices_from_vectors] returns one matrix per
    pair, and [rotate_vector_collection] applied to these matrices and
    to v0 returns v1, item by item, exactly, in real arithmetic. *)
Theorem rotate_rotation_matrices_from_vectors
  {numpy : NumPy} (v0 v1 : list vec2) (optimize : bool) :
  length v0 = length v1 ->
  Forall (fun v => norm2 v = 1) v0 ->
  Forall (fun v => norm2 v = 1) v1 ->
  exists ms : list mat2,
    rotation_matrices_from_vectors (of_vecs v0) (of_vecs v1)
    = Ok (of_mats ms)
    /\ length ms = length v0
    /\ rotate_vector_collection (of_mats ms) (of_vecs v0) optimize
       = Ok (of_vecs v1).
Proof.
  intros Hlen H0 H1. eexists. split; [|split].
  - apply rotation_matrices_from_vectors_of_vecs, Hlen.
  - rewrite length_map, length_combine, <- Hlen. apply Nat.min_id.
  - rewrite rotate_vector_collection_batched, einsum_of_mats_vecs.
    rewrite length_map, length_combine, <- Hlen, Nat.min_id.
    unfold np.label_extent. rewrite Nat.eqb_refl. do 2 f_equal.
    transitivity (map (fun v : vec2 => v) v1); [|apply map_id].
    rewrite <- (map_seq_nth (fun v : vec2 => v) v1 (0, 0)), <- Hlen.
    apply map_ext_in. intros i Hi. apply in_seq in Hi.
    rewrite bcast_lt by lia.
    set (f := fun p : vec2 * vec2 =>
               rot (signed_angle (normalize (fst p)) (normalize (snd p)))).
    rewrite (nth_indep _ _ (f ((0, 0), (0, 0))))
      by (rewrite length_map, length_combine; lia).
    rewrite (map_nth f (combine v0 v1) ((0, 0), (0, 0)) i). unfold f.
    rewrite combine_nth by exact Hlen. cbn [fst snd].
    assert (Hu : norm2 (nth i v0 (0, 0)) = 1).
    { rewrite Forall_forall in H0. apply H0, nth_In. lia. }
    assert (Hv : norm2 (nth i v1 (0, 0)) = 1).
    { rewrite Forall_forall in H1. apply H1, nth_In. lia. }
    rewrite !normalize_unit_vector by assumption.
    now apply rot_signed_angle.
Qed.

Lemma rotate_rotation_matrices_from_vectors_witness :
  exists ms : list mat2,
    rotation_matrices_from_vectors (of_vecs [(1, 0)]) (of_vecs [(0, 1)])
    = Ok (of_mats ms)
    /\ length ms = length [(1, 0)]
    /\ rotate_vector_collection (numpy := lcg16)
         (of_mats ms) (of_vecs [(1, 0)]) false
       = Ok (of_vecs [(0, 1)]).
Proof.
  apply (rotate_rotation_matrices_from_vectors (numpy := lcg16)).
  - reflexivity.
  - constructor; [|constructor]. unfold norm2, dot2; cbn [fst snd].
    replace (1 * 1 + 0 * 0) with 1 by lra. apply sqrt_1.
  - constructor; [|constructor]. unfold norm2, dot2; cbn [fst snd].
    replace (0 * 0 + 1 * 1) with 1 by lra. apply sqrt_1.
Defined.

(** * Further properties of the module *)

(** ** Mode selection and errors of [rotate_vector_collection] *)

Lemma einsum_never_TypeError (a b : ndarray) :
  np.einsum_ijk_ik_ij a b <> Raise TypeError.
Proof.
  unfold np.einsum_ijk_ik_ij.
  repeat match goal with
  | |- context [match ?x with _ => _ end] => destruct x
  end; discriminate.
Qed.

(** X1: the result of [rotate_vector_collection] depends neither on the
    [optimize] flag nor on whether the installed [einsum] knows the
    keyword: the TypeError fallback computes the same contraction. *)
Theorem rotate_vector_collection_optimize_transparent
  (np1 np2 : NumPy) (rotation_matrices vectors : ndarray) (o1 o2 : bool) :
  rotate_vector_collection (numpy := np1) rotation_matrices vectors o1
  = rotate_vector_collection (numpy := np2) rotation_matrices vectors o2.
Proof.
  unfold rotate_vector_collection.
  destruct (shape_eqb (shape rotation_matrices) [2%nat; 2%nat]);
    [reflexivity|].
  pose proof (einsum_never_TypeError rotation_matrices vectors) as H.
  unfold einsum.
  destruct (@einsum_optimize_kw np1), (@einsum_optimize_kw np2);
    destruct (np.einsum_ijk_ik_ij rotation_matrices vectors) as [r|[]];
    try reflexivity; contradiction.
Qed.

(** X2: in shared mode a single vector of shape (2,) is accepted and the
    result is the matrix applied to it, again of shape (2,). *)
Theorem rotate_vector_collection_single_vector
  {numpy : NumPy} (M : mat2) (v : vec2) (optimize : bool) :
  rotate_vector_collection (of_mat M) (of_vec v) optimize
  = Ok (of_vec (mat_vec M v)).
Proof.
  unfold rotate_vector_collection. cbn [shape of_mat].
  replace (shape_eqb _ _) with true by reflexivity.
  unfold np.T, np.dot, tabulate, rsum, item, of_vec, of_mat, mat_vec,
    vec_row, mat_rows.
  simpl. do 2 f_equal. repeat (f_equal; try ring).
Qed.

Lemma shape_eqb_false (s t : list nat) : s <> t -> shape_eqb s t = false.
Proof.
  intros H. unfold shape_eqb. destruct (list_eq_dec Nat.eq_dec s t);
    [contradiction|reflexivity].
Qed.

(** X3: a matrix argument whose shape is not (2, 2) is contracted item
    by item, and the contraction accepts only a three-axis matrix array
    with a two-axis vector array: any other combination (a 3x3 matrix,
    a lone vector of shape (2,) with a matrix batch, ...) raises
    ValueError. *)
Theorem rotate_vector_collection_batched_ranks
  {numpy : NumPy} (rotation_matrices vectors : ndarray) (optimize : bool) :
  shape rotation_matrices <> [2%nat; 2%nat] ->
  length (shape rotation_matrices) <> 3%nat
  \/ length (shape vectors) <> 2%nat ->
  rotate_vector_collection rotation_matrices vectors optimize
  = Raise ValueError.
Proof.
  intros Hs Hr. unfold rotate_vector_collection.
  rewrite shape_eqb_false by exact Hs.
  assert (H : np.einsum_ijk_ik_ij rotation_matrices vectors
              = Raise ValueError).
  { unfold np.einsum_ijk_ik_ij.
    destruct (shape rotation_matrices) as [|? [|? [|? [|? ?]]]];
      try reflexivity;
      destruct (shape vectors) as [|? [|? [|? ?]]]; try reflexivity.
    cbn [length] in Hr. destruct Hr; lia. }
  unfold einsum. rewrite H. destruct einsum_optimize_kw; reflexivity.
Qed.

Lemma rotate_vector_collection_batched_ranks_witness :
  rotate_vector_collection (numpy := lcg16)
    (np.zeros [3; 3]%nat) (of_vecs [(1, 0); (0, 1); (1, 1)]) false
  = Raise ValueError.
Proof.
  apply (rotate_vector_collection_batched_ranks (numpy := lcg16)).
  - cbn [shape np.zeros]. intros E. discriminate E.
  - left. cbn [shape np.zeros length]. lia.
Defined.

(** X4: in shared mode the vectors must have two components: a batch
    of shape (N, k) with k other than 2 makes [np.dot] raise
    ValueError. *)
Theorem rotate_vector_collection_shared_columns
  {numpy : NumPy} (rotation_matrices vectors : ndarray) (n k : nat)
  (optimize : bool) :
  shape rotation_matrices = [2%nat; 2%nat] ->
  shape vectors = [n; k] ->
  k <> 2%nat ->
  rotate_vector_collection rotation_matrices vectors optimize
  = Raise ValueError.
Proof.
  intros Hm Hv Hk. unfold rotate_vector_collection. rewrite Hm.
  replace (shape_eqb _ _) with true by reflexivity.
  unfold np.dot. rewrite Hm. unfold np.T at 1. rewrite Hv.
  cbn [rev app tabulate shape last length Nat.sub nth].
  destruct (Nat.eqb_spec 2 k) as [E|E]; [congruence|reflexivity].
Qed.

Lemma rotate_vector_collection_shared_columns_witness :
  rotate_vector_collection (numpy := lcg16)
    (of_mat identity2) (mk_ndarray [1; 3]%nat [1; 0; 0]) false
  = Raise ValueError.
Proof.
  apply (rotate_vector_collection_shared_columns (numpy := lcg16)
           _ _ 1%nat 3%nat); [reflexivity|reflexivity|lia].
Defined.

(** ** Angle arrays of two axes *)

(** X5: [rotation_matrices_from_angles] accepts a two-axis angle array
    only when its shape is (1, 1); for every other shape (n, m), such as
    a column (N, 1) of N >= 2 angles or a row (1, N), the first slice
    assignment cannot broadcast the cosines and raises ValueError. *)
Theorem rotation_matrices_from_angles_two_axes
  (angles : ndarray) (n m : nat) :
  shape angles = [n; m] ->
  (n <> 1%nat \/ m <> 1%nat ->
   rotation_matrices_from_angles angles = Raise ValueError)
  /\ (forall theta : R,
        rotation_matrices_from_angles (mk_ndarray [1; 1]%nat [theta])
        = Ok (of_mats [rot theta])).
Proof.
  intros Hs. split.
  - intros Hnm.
    assert (Ha : np.atleast_1d angles = angles)
      by (unfold np.atleast_1d; now rewrite Hs).
    unfold rotation_matrices_from_angles. rewrite Ha. unfold len.
    rewrite Hs. cbn [rbind].
    unfold setitem_col at 1. cbn [shape np.zeros np.cos Nat.ltb Nat.leb andb].
    rewrite Hs.
    destruct n as [|[|n]]; [reflexivity| |reflexivity].
    change (drop_ones [1%nat; m]) with (drop_ones [m]).
    rewrite drop_ones_1.
    destruct (Nat.eqb_spec m 1) as [E|E]; [destruct Hnm; congruence|].
    cbn [rbind]. rewrite (proj2 (Nat.eqb_neq m 1)) by exact E. reflexivity.
  - intros theta. reflexivity.
Qed.

Lemma rotation_matrices_from_angles_two_axes_witness :
  rotation_matrices_from_angles (mk_ndarray [2; 1]%nat [0; PI])
  = Raise ValueError.
Proof.
  apply (rotation_matrices_from_angles_two_axes
           (mk_ndarray [2; 1]%nat [0; PI]) 2%nat 1%nat eq_refl).
  left. lia.
Defined.

(** ** Rotating by the matrices of angles *)

Lemma combine_map_l {A B C} (f : A -> B) (l : list A) (k : list C) :
  combine (map f l) k = map (fun p => (f (fst p), snd p)) (combine l k).
Proof.
  revert k; induction l as [|x l IH]; intros [|y k]; simpl;
    try reflexivity.
  now rewrite IH.
Qed.

Section Rotate.

Context {numpy : NumPy}.

Lemma rotate_equal_lengths (ms : list mat2) (vs : list vec2)
  (optimize : bool) :
  length ms = length vs ->
  rotate_vector_collection (of_mats ms) (of_vecs vs) optimize
  = Ok (of_vecs (map (fun p => mat_vec (fst p) (snd p)) (combine ms vs))).
Proof.
  intros Hlen.
  rewrite rotate_vector_collection_batched, einsum_of_mats_vecs.
  unfold np.label_extent. rewrite Hlen, Nat.eqb_refl, <- Hlen.
  do 2 f_equal.
  rewrite <- (map_seq_nth2 mat_vec ms vs (Mat2 0 0 0 0) (0, 0)) by exact Hlen.
  apply map_ext_in. intros i Hi. apply in_seq in Hi.
  rewrite !bcast_lt by lia. reflexivity.
Qed.

Lemma rotate_by_angles (angles : list R) (vs : list vec2) (optimize : bool) :
  length angles = length vs ->
  (R <- rotation_matrices_from_angles (array1 angles) ;;
   rotate_vector_collection R (of_vecs vs) optimize)%py
  = Ok (of_vecs (map (fun p => mat_vec (rot (fst p)) (snd p))
                     (combine angles vs))).
Proof.
  intros Hlen. rewrite rotation_matrices_from_angles_array1. cbn [rbind].
  rewrite rotate_equal_lengths by (rewrite length_map; exact Hlen).
  rewrite combine_map_l, map_map. reflexivity.
Qed.

End Rotate.

Lemma mat_vec_rot_norm (theta : R) (v : vec2) :
  norm2 (mat_vec (rot theta) v) = norm2 v.
Proof.
  pose proof (sin2_cos2 theta) as H. unfold Rsqr in H.
  unfold norm2. f_equal.
  unfold dot2, mat_vec, rot; cbn [m00 m01 m10 m11 fst snd].
  replace ((cos theta * fst v + sin theta * snd v)
           * (cos theta * fst v + sin theta * snd v)
           + (- sin theta * fst v + cos theta * snd v)
             * (- sin theta * fst v + cos theta * snd v))
    with ((sin theta * sin theta + cos theta * cos theta)
          * (fst v * fst v + snd v * snd v)) by ring.
  rewrite H. ring.
Qed.

Lemma mat_vec_rot_dot (theta : R) (u v : vec2) :
  dot2 (mat_vec (rot theta) u) (mat_vec (rot theta) v) = dot2 u v.
Proof.
  pose proof (sin2_cos2 theta) as H. unfold Rsqr in H.
  unfold dot2, mat_vec, rot; cbn [m00 m01 m10 m11 fst snd].
  replace ((cos theta * fst u + sin theta * snd u)
           * (cos theta * fst v + sin theta * snd v)
           + (- sin theta * fst u + cos theta * snd u)
             * (- sin theta * fst v + cos theta * snd v))
    with ((sin theta * sin theta + cos theta * cos theta)
          * (fst u * fst v + snd u * snd v)) by ring.
  rewrite H. ring.
Qed.

(** X6: rotating a batch by the matrices of a batch of angles of the
    same length returns one vector per input, each of the length of its
    input, and the dot product of two batches rotated by the same angles
    is the dot product of the batches. *)
Theorem rotate_by_angles_isometry
  {numpy : NumPy} (angles : list R) (us vs : list vec2) (optimize : bool) :
  length angles = length us -> length angles = length vs ->
  exists us' vs' : list vec2,
    (R <- rotation_matrices_from_angles (array1 angles) ;;
     rotate_vector_collection R (of_vecs us) optimize)%py
    = Ok (of_vecs us')
    /\ (R <- rotation_matrices_from_angles (array1 angles) ;;
        rotate_vector_collection R (of_vecs vs) optimize)%py
       = Ok (of_vecs vs')
    /\ map norm2 us' = map norm2 us
    /\ map (fun p => dot2 (fst p) (snd p)) (combine us' vs')
       = map (fun p => dot2 (fst p) (snd p)) (combine us vs).
Proof.
  intros Hu Hv. do 2 eexists. split; [|split; [|split]].
  - apply rotate_by_angles, Hu.
  - apply rotate_by_angles, Hv.
  - rewrite map_map. clear Hv. revert us Hu.
    induction angles as [|a angles IH]; intros [|u us] Hu; simpl in *;
      try discriminate; [reflexivity|].
    rewrite mat_vec_rot_norm. f_equal. apply IH. lia.
  - revert us vs Hu Hv.
    induction angles as [|a angles IH]; intros [|u us] [|v vs] Hu Hv;
      simpl in *; try discriminate; [reflexivity|].
    rewrite mat_vec_rot_dot. f_equal. apply IH; lia.
Qed.

Lemma rotate_by_angles_isometry_witness :
  exists us' vs' : list vec2,
    (R <- rotation_matrices_from_angles (array1 [1; 2]) ;;
     rotate_vector_collection (numpy := lcg16) R
       (of_vecs [(3, 4); (1, 0)]) false)%py
    = Ok (of_vecs us')
    /\ (R <- rotation_matrices_from_angles (array1 [1; 2]) ;;
        rotate_vector_collection (numpy := lcg16) R
          (of_vecs [(0, 1); (1, 1)]) false)%py
       = Ok (of_vecs vs')
    /\ map norm2 us' = map norm2 [(3, 4); (1, 0)]
    /\ map (fun p => dot2 (fst p) (snd p)) (combine us' vs')
       = map (fun p => dot2 (fst p) (snd p))
             (combine [(3, 4); (1, 0)] [(0, 1); (1, 1)]).
Proof.
  apply (rotate_by_angles_isometry (numpy := lcg16)); reflexivity.
Defined.

Lemma mat_vec_rot_plus (a b : R) (v : vec2) :
  mat_vec (rot b) (mat_vec (rot a) v) = mat_vec (rot (a + b)) v.
Proof.
  unfold mat_vec, rot; cbn [m00 m01 m10 m11 fst snd].
  rewrite cos_plus, sin_plus. f_equal; ring.
Qed.

Lemma mat_vec_rot_0 (v : vec2) : mat_vec (rot 0) v = v.
Proof.
  unfold mat_vec, rot; cbn [m00 m01 m10 m11 fst snd].
  rewrite cos_0, sin_0. destruct v as [x y]; cbn [fst snd]. f_equal; ring.
Qed.

(** X7: rotating a batch by the matrices of the angles a and then by
    the matrices of the angles b is rotating it by the matrices of the
    angles a + b, item by item. *)
Theorem rotate_by_angles_compose
  {numpy : NumPy} (a b : list R) (vs : list vec2) (o1 o2 o3 : bool) :
  length a = length vs -> length b = length vs ->
  (Ra <- rotation_matrices_from_angles (array1 a) ;;
   ws <- rotate_vector_collection Ra (of_vecs vs) o1 ;;
   Rb <- rotation_matrices_from_angles (array1 b) ;;
   rotate_vector_collection Rb ws o2)%py
  = (Rab <- rotation_matrices_from_angles
              (array1 (map (fun p => fst p + snd p) (combine a b))) ;;
     rotate_vector_collection Rab (of_vecs vs) o3)%py.
Proof.
  intros Ha Hb.
  pose proof (rotate_by_angles a vs o1 Ha) as E1.
  rewrite rotation_matrices_from_angles_array1 in E1. cbn [rbind] in E1.
  rewrite (rotation_matrices_from_angles_array1 a). cbn [rbind].
  rewrite E1. cbn [rbind].
  rewrite rotate_by_angles
    by (rewrite length_map, length_combine; lia).
  rewrite rotate_by_angles
    by (rewrite length_map, length_combine; lia).
  do 2 f_equal. clear E1. revert b vs Ha Hb.
  induction a as [|x a IH]; intros [|y b] [|v vs] Ha Hb; simpl in *;
    try discriminate; [reflexivity|].
  rewrite mat_vec_rot_plus. f_equal. apply IH; lia.
Qed.

Lemma rotate_by_angles_compose_witness :
  (Ra <- rotation_matrices_from_angles (array1 [1; 2]) ;;
   ws <- rotate_vector_collection (numpy := lcg16) Ra
           (of_vecs [(3, 4); (1, 0)]) false ;;
   Rb <- rotation_matrices_from_angles (array1 [5; 7]) ;;
   rotate_vector_collection (numpy := lcg16) Rb ws false)%py
  = (Rab <- rotation_matrices_from_angles
              (array1 (map (fun p => fst p + snd p)
                           (combine [1; 2] [5; 7]))) ;;
     rotate_vector_collection (numpy := lcg16) Rab
       (of_vecs [(3, 4); (1, 0)]) false)%py.
Proof.
  apply (rotate_by_angles_compose (numpy := lcg16)); reflexivity.
Defined.

(** X8: rotating a batch by the matrices of a batch of angles and then
    by the matrices of the negated angles gives the batch back. *)
Theorem rotate_by_angles_inverse
  {numpy : NumPy} (angles : list R) (vs : list vec2) (o1 o2 : bool) :
  length angles = length vs ->
  (R1 <- rotation_matrices_from_angles (array1 angles) ;;
   ws <- rotate_vector_collection R1 (of_vecs vs) o1 ;;
   R2 <- rotation_matrices_from_angles (np.negative (array1 angles)) ;;
   rotate_vector_collection R2 ws o2)%py
  = Ok (of_vecs vs).
Proof.
  intros Hlen.
  assert (Hneg : np.negative (array1 angles) = array1 (map Ropp angles))
    by (unfold np.negative, array1; cbn [shape data];
        now rewrite length_map).
  rewrite Hneg.
  pose proof (rotate_by_angles angles vs o1 Hlen) as E1.
  rewrite rotation_matrices_from_angles_array1 in E1. cbn [rbind] in E1.
  rewrite (rotation_matrices_from_angles_array1 angles). cbn [rbind].
  rewrite E1. cbn [rbind].
  rewrite rotate_by_angles
    by (rewrite !length_map, length_combine; lia).
  do 2 f_equal. clear E1 Hneg. revert vs Hlen.
  induction angles as [|x a IH]; intros [|v vs] Hlen; simpl in *;
    try discriminate; [reflexivity|].
  rewrite mat_vec_rot_plus, Rplus_opp_r, mat_vec_rot_0.
  f_equal. apply IH; lia.
Qed.

Lemma rotate_by_angles_inverse_witness :
  (R1 <- rotation_matrices_from_angles (array1 [1; 2]) ;;
   ws <- rotate_vector_collection (numpy := lcg16) R1
           (of_vecs [(3, 4); (1, 0)]) false ;;
   R2 <- rotation_matrices_from_angles (np.negative (array1 [1; 2])) ;;
   rotate_vector_collection (numpy := lcg16) R2 ws true)%py
  = Ok (of_vecs [(3, 4); (1, 0)]).
Proof.
  apply (rotate_by_angles_inverse (numpy := lcg16)); reflexivity.
Defined.

(** X9: the sign convention.  The matrix of the angle theta turns a
    vector clockwise by theta: the vector of length r at polar angle phi
    goes to the vector of length r at polar angle phi - theta. *)
Theorem rotate_by_angles_clockwise
  {numpy : NumPy} (angles : list R) (polar : list (R * R))
  (optimize : bool) :
  length angles = length polar ->
  (R <- rotation_matrices_from_angles (array1 angles) ;;
   rotate_vector_collection R
     (of_vecs (map (fun p => (fst p * cos (snd p), fst p * sin (snd p)))
                   polar))
     optimize)%py
  = Ok (of_vecs (map (fun q => (fst (snd q) * cos (snd (snd q) - fst q),
                                fst (snd q) * sin (snd (snd q) - fst q)))
                     (combine angles polar))).
Proof.
  intros Hlen.
  rewrite rotate_by_angles by (rewrite length_map; exact Hlen).
  do 2 f_equal. revert polar Hlen.
  induction angles as [|t angles IH]; intros [|[r phi] polar] Hlen;
    simpl in *; try discriminate; [reflexivity|].
  f_equal; [|apply IH; lia].
  unfold mat_vec, rot; cbn [m00 m01 m10 m11 fst snd].
  rewrite cos_minus, sin_minus. f_equal; ring.
Qed.

Lemma rotate_by_angles_clockwise_witness :
  (R <- rotation_matrices_from_angles (array1 [1]) ;;
   rotate_vector_collection (numpy := lcg16) R
     (of_vecs (map (fun p => (fst p * cos (snd p), fst p * sin (snd p)))
                   [(2, 3)]))
     false)%py
  = Ok (of_vecs (map (fun q => (fst (snd q) * cos (snd (snd q) - fst q),
                                fst (snd q) * sin (snd (snd q) - fst q)))
                     (combine [1] [(2, 3)]))).
Proof.
  apply (rotate_by_angles_clockwise (numpy := lcg16)); reflexivity.
Defined.

(** X10: the matrices of a scalar angle form a batch of one, shape
    (1, 2, 2), which is not the shared-mode shape (2, 2); applied to a
    batch of any length the contraction broadcasts it, and the result is
    that of shared mode with the one matrix: every vector rotated by the
    same angle. *)
Theorem rotate_by_scalar_angle
  {numpy : NumPy} (theta : R) (vs : list vec2) (o1 o2 : bool) :
  (R <- rotation_matrices_from_angles (scalar theta) ;;
   rotate_vector_collection R (of_vecs vs) o1)%py
  = Ok (of_vecs (map (mat_vec (rot theta)) vs))
  /\ (R <- rotation_matrices_from_angles (scalar theta) ;;
      rotate_vector_collection R (of_vecs vs) o1)%py
     = rotate_vector_collection (of_mat (rot theta)) (of_vecs vs) o2.
Proof.
  assert (E : (R <- rotation_matrices_from_angles (scalar theta) ;;
               rotate_vector_collection R (of_vecs vs) o1)%py
              = Ok (of_vecs (map (mat_vec (rot theta)) vs))).
  { change (rotation_matrices_from_angles (scalar theta))
      with (rotation_matrices_from_angles (array1 [theta])).
    rewrite rotation_matrices_from_angles_array1. cbn [rbind map].
    rewrite rotate_vector_collection_batched, einsum_of_mats_vecs.
    assert (L : np.label_extent (length [rot theta]) (length vs)
                = Some (length vs)).
    { unfold np.label_extent. cbn [length].
      destruct (Nat.eqb_spec 1 (length vs)) as [<-|]; reflexivity. }
    rewrite L. do 2 f_equal.
    rewrite <- (map_seq_nth (mat_vec (rot theta)) vs (0, 0)).
    apply map_ext_in. intros i Hi. apply in_seq in Hi.
    rewrite (bcast_lt (length vs)) by lia. reflexivity. }
  split; [exact E|].
  now rewrite E, rotate_vector_collection_shared.
Qed.

(** X11: negating the angles transposes the matrices, and the
    transposes are the inverses. *)
Theorem rotation_matrices_from_angles_negated (angles : list R) :
  exists ms : list mat2,
    rotation_matrices_from_angles (array1 angles) = Ok (of_mats ms)
    /\ rotation_matrices_from_angles (np.negative (array1 angles))
       = Ok (of_mats (map transpose2 ms))
    /\ Forall (fun M => mat_mul (transpose2 M) M = identity2) ms.
Proof.
  exists (map rot angles). split; [|split].
  - apply rotation_matrices_from_angles_array1.
  - replace (np.negative (array1 angles)) with (array1 (map Ropp angles))
      by (unfold np.negative, array1; cbn [shape data];
          now rewrite length_map).
    rewrite rotation_matrices_from_angles_array1, !map_map.
    do 2 f_equal. apply map_ext. intros t.
    unfold rot, transpose2; cbn [m00 m01 m10 m11].
    now rewrite cos_neg, sin_neg, Ropp_involutive.
  - apply Forall_forall. intros M HM. apply in_map_iff in HM.
    destruct HM as (t & <- & _).
    pose proof (sin2_cos2 t) as H. unfold Rsqr in H.
    unfold mat_mul, transpose2, rot, identity2; cbn [m00 m01 m10 m11].
    f_equal; lra.
Qed.

(** ** What [rotation_matrices_from_vectors] can return *)




(** ** More on [random_perpendicular_directions] *)

Lemma sqrt_square_abs (a : R) : sqrt (a * a) = Rabs a.
Proof. exact (sqrt_Rsqr_abs a). Qed.

Lemma Rabs_sqr_self (a : R) : Rabs a * Rabs a = a * a.
Proof.
  destruct (Rcase_abs a) as [H|H].
  - rewrite Rabs_left by exact H. ring.
  - rewrite Rabs_right by exact H. ring.
Qed.

Lemma norm2_scale2_abs (a : R) (v : vec2) :
  norm2 (scale2 a v) = Rabs a * norm2 v.
Proof.
  unfold norm2, scale2, dot2; cbn [fst snd].
  replace (a * fst v * (a * fst v) + a * snd v * (a * snd v))
    with ((a * a) * (fst v * fst v + snd v * snd v)) by ring.
  rewrite sqrt_mult; [|nra|nra].
  now rewrite sqrt_square_abs.
Qed.

Lemma normalize_scale2_any (a : R) (v : vec2) :
  normalize (scale2 a v) = scale2 (a / Rabs a) (normalize v).
Proof.
  unfold normalize. rewrite norm2_scale2_abs.
  unfold scale2, Rdiv; cbn [fst snd]. rewrite Rinv_mult. f_equal; ring.
Qed.

Lemma perpendicular_scale2 (a : R) (v w : vec2) :
  a <> 0 -> perpendicular (scale2 a v) w = perpendicular v w.
Proof.
  intros Ha. unfold perpendicular. cbv zeta. rewrite normalize_scale2_any.
  assert (Hs : (a / Rabs a) * (a / Rabs a) = 1).
  { pose proof (Rabs_pos_lt a Ha) as Hp. pose proof (Rabs_sqr_self a) as Hq.
    unfold Rdiv.
    replace (a * / Rabs a * (a * / Rabs a))
      with ((a * a) * (/ Rabs a * / Rabs a)) by ring.
    rewrite <- Hq. field. lra. }
  revert Hs. generalize (a / Rabs a) as s.
  generalize (normalize v) as e. generalize (normalize w) as f.
  intros f e s Hs. f_equal.
  unfold dot2, scale2; cbn [fst snd]. f_equal.
  - replace ((s * fst e * fst f + s * snd e * snd f) * (s * fst e))
      with ((s * s) * ((fst e * fst f + snd e * snd f) * fst e)) by ring.
    rewrite Hs. ring.
  - replace ((s * fst e * fst f + s * snd e * snd f) * (s * snd e))
      with ((s * s) * ((fst e * fst f + snd e * snd f) * snd e)) by ring.
    rewrite Hs. ring.
Qed.

(** X13: the result of [random_perpendicular_directions] does not change
    when the input vectors are multiplied by a non-zero scalar, negative
    ones included: it depends on the line of each vector only. *)
Theorem random_perpendicular_directions_scale_invariant
  {numpy : NumPy} (a : R) (vs : list vec2) (seed : option Z)
  (st : rng_state) :
  a <> 0 ->
  random_perpendicular_directions (of_vecs (map (scale2 a) vs)) seed st
  = random_perpendicular_directions (of_vecs vs) seed st.
Proof.
  intros Ha. rewrite !random_perpendicular_directions_of_vecs.
  rewrite length_map. f_equal. do 2 f_equal.
  rewrite combine_map_l, map_map. apply map_ext. intros [v w].
  cbn [fst snd]. now apply perpendicular_scale2.
Qed.

Lemma random_perpendicular_directions_scale_invariant_witness :
  random_perpendicular_directions (numpy := lcg16)
    (of_vecs (map (scale2 (-3)) [(1, 0); (2, 5)])) (Some 7%Z) 0%Z
  = random_perpendicular_directions (numpy := lcg16)
      (of_vecs [(1, 0); (2, 5)]) (Some 7%Z) 0%Z.
Proof.
  apply (random_perpendicular_directions_scale_invariant (numpy := lcg16)).
  lra.
Defined.

Lemma perpendicular_quarter_turn (v w : vec2) :
  cross2 v w <> 0 ->
  perpendicular v w
  = if Rlt_dec 0 (cross2 v w)
    then (- snd v / norm2 v, fst v / norm2 v)
    else (snd v / norm2 v, - fst v / norm2 v).
Proof.
  intros Hc.
  pose proof (cross2_nonzero_l v w Hc) as Hv.
  pose proof (cross2_nonzero_r v w Hc) as Hw.
  pose proof (norm2_pos v Hv) as Hnv. pose proof (norm2_pos w Hw) as Hnw.
  pose proof (dot2_self_nonneg v) as Hdv.
  destruct (rejection_coordinates v w Hv Hw) as [E1 E2].
  unfold perpendicular. cbv zeta in *. rewrite E1, E2.
  set (k := cross2 v w / (norm2 w * dot2 v v)) in *.
  assert (Hden : 0 < norm2 w * dot2 v v) by (apply Rmult_lt_0_compat; lra).
  assert (HN : norm2 (- snd v * k, fst v * k) = Rabs k * norm2 v).
  { unfold norm2 at 1. unfold dot2 at 1. cbn [fst snd].
    replace (- snd v * k * (- snd v * k) + fst v * k * (fst v * k))
      with ((k * k) * dot2 v v) by (unfold dot2; ring).
    rewrite sqrt_mult; [|nra|exact Hdv].
    now rewrite sqrt_square_abs. }
  unfold normalize at 1. rewrite HN. cbn [fst snd].
  destruct (Rlt_dec 0 (cross2 v w)) as [Hpos|Hneg].
  - assert (Hk : 0 < k) by (apply Rdiv_lt_0_compat; assumption).
    rewrite Rabs_right by lra. f_equal; field; lra.
  - assert (Hk : k < 0).
    { pose proof (Rinv_0_lt_compat _ Hden) as Hinv.
      unfold k, Rdiv. nra. }
    rewrite Rabs_left by exact Hk. f_equal; field; lra.
Qed.

(** X14: in the plane the perpendicular direction is never random
    beyond a sign: when the drawn w is not parallel to v, the vector
    returned for v = (x, y) is (-y, x)/|v| if v x w > 0 and (y, -x)/|v|
    if v x w < 0. *)
Theorem random_perpendicular_directions_quarter_turn
  {numpy : NumPy} (vs : list vec2) (seed : option Z) (st : rng_state) :
  Forall2 (fun v w => cross2 v w <> 0)
          vs (sample_vectors (length vs) (context_state seed st)) ->
  fst (random_perpendicular_directions (of_vecs vs) seed st)
  = Ok (of_vecs (map (fun p =>
          if Rlt_dec 0 (cross2 (fst p) (snd p))
          then (- snd (fst p) / norm2 (fst p), fst (fst p) / norm2 (fst p))
          else (snd (fst p) / norm2 (fst p), - fst (fst p) / norm2 (fst p)))
          (combine vs (sample_vectors (length vs)
                         (context_state seed st))))).
Proof.
  intros Hc. rewrite random_perpendicular_directions_of_vecs. cbn [fst].
  do 2 f_equal.
  induction Hc as [|v w vs ws Hvw _ IH]; cbn [combine map]; [reflexivity|].
  f_equal; [|exact IH]. cbn [fst snd]. now apply perpendicular_quarter_turn.
Qed.

Lemma random_perpendicular_directions_quarter_turn_witness :
  fst (random_perpendicular_directions (numpy := lcg16)
         (of_vecs [(1, 0)]) (Some 1%Z) 0%Z)
  = Ok (of_vecs (map (fun p =>
          if Rlt_dec 0 (cross2 (fst p) (snd p))
          then (- snd (fst p) / norm2 (fst p), fst (fst p) / norm2 (fst p))
          else (snd (fst p) / norm2 (fst p), - fst (fst p) / norm2 (fst p)))
          (combine [(1, 0)]
             (sample_vectors (numpy := lcg16) (length [(1, 0)])
                (context_state (numpy := lcg16) (Some 1%Z) 0%Z))))).
Proof.
  apply (random_perpendicular_directions_quarter_turn (numpy := lcg16)).
  cbn. constructor; [|constructor]. unfold cross2; cbn. lra.
Defined.

(** X15: for the empty batch [random_perpendicular_directions] returns
    the empty batch and leaves the generator as it found it, seeded or
    not. *)
Theorem random_perpendicular_directions_empty
  {numpy : NumPy} (seed : option Z) (st : rng_state) :
  random_perpendicular_directions (of_vecs []) seed st
  = (Ok (of_vecs []), st).
Proof.
  rewrite random_perpendicular_directions_of_vecs.
  destruct seed; reflexivity.
Qed.

(** ** Vector pairs that are not unit vectors *)

Lemma mat_vec_scale2 (M : mat2) (c : R) (v : vec2) :
  mat_vec M (scale2 c v) = scale2 c (mat_vec M v).
Proof. unfold mat_vec, scale2; cbn [fst snd]. f_equal; ring. Qed.

Lemma scale2_norm2_normalize (v : vec2) :
  nonzero v -> scale2 (norm2 v) (normalize v) = v.
Proof.
  intros Hv. pose proof (norm2_pos v (nonzero_dot2 v Hv)) as Hn.
  unfold scale2, normalize; cbn [fst snd]. destruct v as [x y]; cbn [fst snd].
  generalize dependent (norm2 (x, y)). intros n Hn. f_equal; field; lra.
Qed.

(** X16: the normalisation of the inputs is indeed ignored: for batches
    of non-zero vectors of the same length, the matrices of
    [rotation_matrices_from_vectors] take each v0 to the vector of the
    length of v0 in the direction of v1. *)
Theorem rotate_rotation_matrices_from_vectors_direction
  {numpy : NumPy} (v0 v1 : list vec2) (optimize : bool) :
  length v0 = length v1 -> Forall nonzero v0 -> Forall nonzero v1 ->
  (R <- rotation_matrices_from_vectors (of_vecs v0) (of_vecs v1) ;;
   rotate_vector_collection R (of_vecs v0) optimize)%py
  = Ok (of_vecs (map (fun p => scale2 (norm2 (fst p)) (normalize (snd p)))
                     (combine v0 v1))).
Proof.
  intros Hlen H0 H1.
  rewrite rotation_matrices_from_vectors_of_vecs by exact Hlen.
  cbn [rbind].
  rewrite rotate_equal_lengths
    by (rewrite length_map, length_combine, <- Hlen; apply Nat.min_id).
  do 2 f_equal. revert v1 Hlen H1.
  induction H0 as [|u v0 Hu H0 IH]; intros [|w v1] Hlen H1; simpl in *;
    try discriminate; [reflexivity|].
  inversion H1 as [|? ? Hw H1']; subst.
  f_equal; [|apply IH; [lia|exact H1']].
  pose proof (normalize_unit u (nonzero_dot2 u Hu)) as Eu.
  pose proof (normalize_unit w (nonzero_dot2 w Hw)) as Ew.
  transitivity (mat_vec (rot (signed_angle (normalize u) (normalize w)))
                        (scale2 (norm2 u) (normalize u)));
    [now rewrite scale2_norm2_normalize|].
  rewrite mat_vec_scale2. f_equal.
  now apply rot_signed_angle.
Qed.

Lemma rotate_rotation_matrices_from_vectors_direction_witness :
  (R <- rotation_matrices_from_vectors (of_vecs [(3, 4)]) (of_vecs [(0, 2)]) ;;
   rotate_vector_collection (numpy := lcg16) R (of_vecs [(3, 4)]) false)%py
  = Ok (of_vecs (map (fun p => scale2 (norm2 (fst p)) (normalize (snd p)))
                     (combine [(3, 4)] [(0, 2)]))).
Proof.
  apply (rotate_rotation_matrices_from_vectors_direction (numpy := lcg16)).
  - reflexivity.
  - constructor; [|constructor]. unfold nonzero. intros E.
    apply (f_equal fst) in E. cbn in E. lra.
  - constructor; [|constructor]. unfold nonzero. intros E.
    apply (f_equal snd) in E. cbn in E. lra.
Defined.

Lemma signed_angle_colinear (e : vec2) (s : R) :
  norm2 e = 1 -> s * s = 1 ->
  rot (signed_angle e (scale2 s e)) = Mat2 s 0 0 s.
Proof.
  intros He Hs.
  pose proof (norm2_sqr e) as Se. rewrite He in Se. unfold dot2 in Se.
  assert (Hn : norm2 (scale2 s e) = 1).
  { rewrite norm2_scale2_abs, He, Rmult_1_r.
    pose proof (Rabs_sqr_self s) as Ha. pose proof (Rabs_pos s) as Hp.
    rewrite Hs in Ha. nra. }
  destruct (signed_angle_trig e (scale2 s e) He Hn) as [Hc Hsn].
  unfold rot. rewrite Hc, Hsn.
  unfold dot2, scale2; cbn [fst snd]. f_equal; try ring.
  replace (fst e * (s * fst e) + snd e * (s * snd e))
    with (s * (fst e * fst e + snd e * snd e)) by ring.
  rewrite <- Se. ring.
  replace (fst e * (s * fst e) + snd e * (s * snd e))
    with (s * (fst e * fst e + snd e * snd e)) by ring.
  rewrite <- Se. ring.
Qed.

(** X17: colinear pairs are no special case: when v1 is a non-zero
    multiple a of the non-zero v0, the matrix is the identity for a > 0
    (zero angle) and minus the identity for a < 0 (half turn), that is
    the diagonal matrix of a/|a|. *)
Theorem rotation_matrices_from_vectors_colinear (a : R) (vs : list vec2) :
  a <> 0 -> Forall nonzero vs ->
  rotation_matrices_from_vectors (of_vecs vs) (of_vecs (map (scale2 a) vs))
  = Ok (of_mats (repeat (Mat2 (a / Rabs a) 0 0 (a / Rabs a)) (length vs))).
Proof.
  intros Ha Hv.
  rewrite rotation_matrices_from_vectors_of_vecs by now rewrite length_map.
  do 2 f_equal.
  assert (Hs : (a / Rabs a) * (a / Rabs a) = 1).
  { pose proof (Rabs_pos_lt a Ha) as Hp. pose proof (Rabs_sqr_self a) as Hq.
    unfold Rdiv.
    replace (a * / Rabs a * (a * / Rabs a))
      with ((a * a) * (/ Rabs a * / Rabs a)) by ring.
    rewrite <- Hq. field. lra. }
  induction Hv as [|v vs Hnz _ IH]; simpl; [reflexivity|].
  f_equal; [|exact IH].
  rewrite normalize_scale2_any.
  apply signed_angle_colinear; [|exact Hs].
  apply normalize_unit, nonzero_dot2, Hnz.
Qed.

Lemma rotation_matrices_from_vectors_colinear_witness :
  rotation_matrices_from_vectors (of_vecs [(3, 4)])
                                 (of_vecs (map (scale2 (-2)) [(3, 4)]))
  = Ok (of_mats (repeat (Mat2 (-2 / Rabs (-2)) 0 0 (-2 / Rabs (-2)))
                        (length [(3, 4)]))).
Proof.
  apply rotation_matrices_from_vectors_colinear.
  - lra.
  - constructor; [|constructor]. unfold nonzero. intros E.
    apply (f_equal fst) in E. cbn in E. lra.
Defined.
